(** * node-cards: the [Deck] aggregate of [src/deck.js]

    A shallow embedding of the [Deck] class: its private per-instance state
    (the [props] WeakMap), the owning-deck field of every card, and each
    method as a state-and-exception computation over that store. *)

From Stdlib Require Import ZArith Lia Permutation.
From stdpp Require Import base tactics option list gmap strings.

Local Open Scope Z_scope.

(** ** Identities

    Cards and decks are JavaScript objects compared by identity ([===],
    SameValueZero inside a [Set]); an object is represented by its identity. *)

Definition Card := nat.
Definition DeckId := nat.

(** The values a caller can hand to [discard]: a [Card] instance, an array
    (possibly nested), or anything else. *)
#[warnings="-register-all"]
Inductive Value : Type :=
  | VCard (c : Card)
  | VArray (elements : list Value)
  | VOther.

(** ** JavaScript arrays of cards *)

(** [Array.prototype.indexOf]: the first index holding [v], or -1. *)
Fixpoint indexOf (a : list Card) (v : Card) : Z :=
  match a with
  | [] => -1
  | x :: r =>
      if decide (x = v) then 0
      else let i := indexOf r v in if i <? 0 then -1 else i + 1
  end.

(** [Array.prototype.splice(start, deleteCount)] on integer arguments:
    the removed elements and the array that is left. *)
Definition splice (a : list Card) (start deleteCount : Z) : list Card * list Card :=
  let len := Z.of_nat (length a) in
  let actualStart := if start <? 0 then Z.max (len + start) 0 else Z.min start len in
  let actualDeleteCount := Z.min (Z.max deleteCount 0) (len - actualStart) in
  let s := Z.to_nat actualStart in
  let k := Z.to_nat actualDeleteCount in
  (take k (drop s a), take s a ++ drop (s + k) a).

(** [array.push(...items)]. *)
Definition push (a items : list Card) : list Card := a ++ items.

(** [array.slice()]: a fresh array with the same elements. *)
Definition slice (a : list Card) : list Card := a.

(** The module-level helper [remove(array, value)]. *)
Definition remove (array : list Card) (value : Card) : list Card :=
  let index := indexOf array value in
  if index >=? 0 then snd (splice array index 1) else array.

(** ** JavaScript [Set] of cards

    ECMAScript keeps the elements of a [Set] in a list in insertion order;
    [delete] overwrites the element with an empty marker and [add] appends,
    which is what an iteration in progress observes. *)
Module JSSet.

Abbreviation t := (list (option Card)).

Definition has (s : t) (v : Card) : bool := bool_decide (Some v ∈ s).

Definition add (s : t) (v : Card) : t :=
  if has s v then s else s ++ [Some v].

Fixpoint delete (s : t) (v : Card) : t :=
  match s with
  | [] => []
  | e :: r => if decide (e = Some v) then None :: r else e :: delete r v
  end.

(** The elements in iteration (insertion) order. *)
Definition values (s : t) : list Card := omap id s.

Definition size (s : t) : nat := length (values s).

(** [new Set(iterable)]. *)
Definition of_list (l : list Card) : t := fold_left add l [].

(** Every element is stored once. *)
Definition wf (s : t) : Prop := NoDup (values s).

End JSSet.

(** ** The store *)

(** The object kept in the [props] WeakMap for one deck. Its three arrays
    never leave the class (the constructor copies its argument, the getters
    and the drawing methods return fresh arrays), so they are kept by
    value. *)
Record Props : Type := mkProps {
  cards : JSSet.t;
  deck : list Card;
  held : list Card;
  discard : list Card
}.

(** [props]: the private state of every constructed deck;
    [card_deck]: the [deck] field of every card, absent for [null]. *)
Record World : Type := mkWorld {
  props : gmap DeckId Props;
  card_deck : gmap Card DeckId
}.

Definition empty_world : World := mkWorld ∅ ∅.

(** The errors of the class, after the message of the [Error] thrown;
    [JSTypeError] is the engine's own error on destructuring [undefined]. *)
Inductive Error : Type :=
  | InvalidPileError   (* cannot add card to unknown pile *)
  | EmptyDeckError     (* Cannot draw from deck, no cards remaining *)
  | TypeNotCardError   (* Value provided is not a Card instance *)
  | NotMemberError     (* Provided card does not belong to this deck *)
  | NotFoundError      (* Failed to find the given card *)
  | JSTypeError.

(** How a call ends: normally with a value, or by throwing; either way the
    store is the one the call left behind. *)
Inductive Completion (A : Type) : Type :=
  | Normal (a : A) (w : World)
  | Throw (e : Error) (w : World).
Arguments Normal {A} a w.
Arguments Throw {A} e w.

Definition M (A : Type) : Type := World → Completion A.

Definition ret {A} (a : A) : M A := fun w => Normal a w.
Definition throw {A} (e : Error) : M A := fun w => Throw e w.
Definition bind {A B} (m : M A) (k : A → M B) : M B :=
  fun w => match m w with
           | Normal a w' => k a w'
           | Throw e w' => Throw e w'
           end.

Notation "'do' x <- m ; k" := (bind m (fun x => k))
  (at level 10, x name, m at level 100, k at level 200).
Notation "m ;; k" := (bind m (fun _ => k))
  (at level 100, k at level 200, right associativity).

(** The store a completion carries. *)
Definition world_of {A} (r : Completion A) : World :=
  match r with Normal _ w => w | Throw _ w => w end.

(** [const { ... } = props.get(this)]. *)
Definition props_get (this : DeckId) : M Props :=
  fun w => match props w !! this with
           | Some p => Normal p w
           | None => Throw JSTypeError w
           end.

(** The in-place updates of the arrays and the set of [this]. *)
Definition props_set (this : DeckId) (p : Props) : M unit :=
  fun w => Normal tt (mkWorld (<[this := p]> (props w)) (card_deck w)).

(** [card.deck = d]. *)
Definition set_card_deck (card : Card) (d : option DeckId) : M unit :=
  fun w => Normal tt (mkWorld (props w) (partial_alter (fun _ => d) card (card_deck w))).

(** [const piles = new Set([ 'deck', 'discard', 'held' ])]. *)
Definition piles : list string := ["deck"; "discard"; "held"]%string.

Definition piles_has (pile : string) : bool := bool_decide (pile ∈ piles).

(** [_props[pile].push(card)] for a name in [piles]. *)
Definition pile_push (pile : string) (card : Card) (p : Props) : Props :=
  if decide (pile = "deck"%string) then
    mkProps (cards p) (push (deck p) [card]) (held p) (discard p)
  else if decide (pile = "discard"%string) then
    mkProps (cards p) (deck p) (held p) (push (discard p) [card])
  else if decide (pile = "held"%string) then
    mkProps (cards p) (deck p) (push (held p) [card]) (discard p)
  else p.

(** The descriptor [locateCard] returns. *)
Record Location : Type := mkLocation {
  loc_pile : string;
  loc_index : Z;
  loc_card : Card
}.

(** A call of the external [shuffle(array)] of [./rand]: the order it leaves
    the array in. *)
Definition Shuffle := list Card → list Card.

Definition is_shuffle (sh : Shuffle) : Prop := ∀ l, Permutation l (sh l).

(** ** The class *)

(** [new Deck(cards)]: the identity of the new object is the first one not
    in use. *)
Definition new_Deck (cards : list Card) : M DeckId :=
  fun w =>
    let this := fresh (dom (props w)) in
    let w1 := mkWorld (<[this := mkProps (JSSet.of_list cards) (slice cards) [] []]> (props w))
                      (card_deck w) in
    (* cards.forEach((card) => { card.deck = this; }) *)
    Normal this
      (fold_left (fun w' card => world_of (set_card_deck card (Some this) w')) cards w1).

Module Deck.

Definition totalLength (this : DeckId) : M nat :=
  do p <- props_get this; ret (JSSet.size (cards p)).

Definition remainingLength (this : DeckId) : M nat :=
  do p <- props_get this; ret (length (deck p)).

(** [add(card, pile = 'deck')]; a caller that leaves [pile] out passes
    ["deck"]. *)
Definition add (this : DeckId) (card : Card) (pile : string) : M unit :=
  if negb (piles_has pile) then throw InvalidPileError
  else fun w =>
    let _props := props w !! this in
    match set_card_deck card (Some this) w with
    | Normal _ w1 =>
        match _props with
        | None => Throw JSTypeError w1
        | Some p =>
            props_set this
              (pile_push pile card (mkProps (JSSet.add (cards p) card) (deck p) (held p) (discard p)))
              w1
        end
    | Throw e w1 => Throw e w1
    end.

Definition remove (this : DeckId) (card : Card) : M unit :=
  do p <- props_get this;
  props_set this
    (mkProps (JSSet.delete (cards p) card)
             (remove (deck p) card)
             (remove (held p) card)
             (remove (discard p) card)) ;;
  set_card_deck card None.

(** [cards.forEach(...)] of [merge]: the loop of [Set.prototype.forEach]
    over the live element list of [deck]'s set, from [index] on; it reads
    the list again after every callback. [None] when [fuel] iterations do
    not finish it. *)
Fixpoint merge_forEach (fuel : nat) (this deck : DeckId) (pile : string)
    (index : nat) (w : World) : option (Completion unit) :=
  match fuel with
  | O => None
  | S fuel' =>
      match props w !! deck with
      | None => Some (Throw JSTypeError w)
      | Some p =>
          match cards p !! index with
          | None => Some (Normal tt w)
          | Some None => merge_forEach fuel' this deck pile (S index) w
          | Some (Some card) =>
              match (remove deck card ;; add this card pile) w with
              | Normal _ w' => merge_forEach fuel' this deck pile (S index) w'
              | Throw e w' => Some (Throw e w')
              end
          end
      end
  end.

Definition merge (fuel : nat) (this deck : DeckId) (pile : string) (w : World)
    : option (Completion unit) :=
  merge_forEach fuel this deck pile 0 w.

(** The four drawing methods, on an integer [count] (1 when left out). *)
Definition draw (this : DeckId) (count : Z) : M (list Card) :=
  do p <- props_get this;
  if bool_decide (length (deck p) = 0%nat) then throw EmptyDeckError
  else if count <? 0 then ret []
  else
    let '(cards', deck') := splice (deck p) 0 count in
    props_set this (mkProps (cards p) deck' (push (held p) cards') (discard p)) ;;
    ret cards'.

Definition drawFromBottom (this : DeckId) (count : Z) : M (list Card) :=
  do p <- props_get this;
  if bool_decide (length (deck p) = 0%nat) then throw EmptyDeckError
  else if count <? 0 then ret []
  else
    let start := Z.max (Z.of_nat (length (deck p)) - count) 0 in
    let '(removed, deck') := splice (deck p) start count in
    let cards' := reverse removed in
    props_set this (mkProps (cards p) deck' (push (held p) cards') (discard p)) ;;
    ret cards'.

Definition drawToDiscard (this : DeckId) (count : Z) : M (list Card) :=
  do p <- props_get this;
  if bool_decide (length (deck p) = 0%nat) then throw EmptyDeckError
  else if count <? 0 then ret []
  else
    let '(cards', deck') := splice (deck p) 0 count in
    props_set this (mkProps (cards p) deck' (held p) (push (discard p) cards')) ;;
    ret cards'.

Definition drawToDiscardFromBottom (this : DeckId) (count : Z) : M (list Card) :=
  do p <- props_get this;
  if bool_decide (length (deck p) = 0%nat) then throw EmptyDeckError
  else if count <? 0 then ret []
  else
    let start := Z.max (Z.of_nat (length (deck p)) - count) 0 in
    let '(removed, deck') := splice (deck p) start count in
    let cards' := reverse removed in
    props_set this (mkProps (cards p) deck' (held p) (push (discard p) cards')) ;;
    ret cards'.

(** [discard] on a [Card] instance. *)
Definition discard_card (this : DeckId) (card : Card) : M unit :=
  do p <- props_get this;
  if negb (JSSet.has (cards p) card) then throw NotMemberError
  else
    let deckIndex := indexOf (deck p) card in
    if deckIndex >=? 0 then
      props_set this
        (mkProps (cards p) (snd (splice (deck p) deckIndex 1)) (held p)
                 (push (discard p) [card]))
    else
      let heldIndex := indexOf (held p) card in
      if heldIndex >=? 0 then
        props_set this
          (mkProps (cards p) (deck p) (snd (splice (held p) heldIndex 1))
                   (push (discard p) [card]))
      else ret tt.

Definition locateCard (this : DeckId) (card : Value) : M Location :=
  match card with
  | VCard card =>
      do p <- props_get this;
      if negb (JSSet.has (cards p) card) then throw NotMemberError
      else
        let deckIndex := indexOf (deck p) card in
        if deckIndex >=? 0 then ret (mkLocation "deck" deckIndex card)
        else
          let heldIndex := indexOf (held p) card in
          if heldIndex >=? 0 then ret (mkLocation "held" heldIndex card)
          else
            let discardIndex := indexOf (discard p) card in
            if discardIndex >=? 0 then ret (mkLocation "discard" discardIndex card)
            else throw NotFoundError
  | _ => throw TypeNotCardError
  end.

Definition shuffleAll (shuffle : Shuffle) (this : DeckId) : M unit :=
  do p <- props_get this;
  props_set this
    (mkProps (cards p) (shuffle (push (push (deck p) (held p)) (discard p))) [] []).

Definition shuffleRemaining (shuffle : Shuffle) (this : DeckId) : M unit :=
  do p <- props_get this;
  props_set this (mkProps (cards p) (shuffle (deck p)) (held p) (discard p)).

Definition shuffleDiscard (shuffle : Shuffle) (this : DeckId) : M unit :=
  do p <- props_get this;
  props_set this (mkProps (cards p) (push (deck p) (shuffle (discard p))) (held p) []).

Definition shuffleDeckAndDiscard (shuffle : Shuffle) (this : DeckId) : M unit :=
  do p <- props_get this;
  props_set this (mkProps (cards p) (shuffle (push (deck p) (discard p))) (held p) []).

Definition discardAllHeld (this : DeckId) : M unit :=
  do p <- props_get this;
  props_set this (mkProps (cards p) (deck p) [] (push (discard p) (held p))).

Definition findCards (this : DeckId) (filter : Card → bool) : M (list Card) :=
  do p <- props_get this;
  ret (List.filter filter (JSSet.values (cards p))).

(** The getters [held] and [discarded]. *)
Definition held (this : DeckId) : M (list Card) :=
  do p <- props_get this; ret (slice (discard p)).

Definition discarded (this : DeckId) : M (list Card) :=
  do p <- props_get this; ret (slice (discard p)).

(** [discard(card)]: an array is discarded element by element. *)
Fixpoint discard (this : DeckId) (card : Value) : M unit :=
  match card with
  | VArray elements =>
      (fix forEach (l : list Value) : M unit :=
         match l with
         | [] => ret tt
         | card :: l' => discard this card ;; forEach l'
         end) elements
  | VCard card => discard_card this card
  | VOther => throw TypeNotCardError
  end.

End Deck.

Local Close Scope Z_scope.

(** ** [merge] as the spec reads it *)

(** The spec's reading of [merge]: the cards of [otherDeck]'s set are
    listed before anything is changed, and each is removed from [otherDeck]
    and added to [this], in that order. *)
Fixpoint forEach_snapshot (this other : DeckId) (pile : string) (snapshot : list Card)
    : M unit :=
  match snapshot with
  | [] => ret tt
  | card :: rest =>
      (Deck.remove other card ;; Deck.add this card pile) ;;
      forEach_snapshot this other pile rest
  end.

Definition merge_snapshot (this other : DeckId) (pile : string) : M unit :=
  do p <- props_get other;
  forEach_snapshot this other pile (JSSet.values (cards p)).

(** ** What a method leaves behind *)

(** The store after the arrays and the set of [this] were updated to [p]. *)
Definition with_props (this : DeckId) (p : Props) (w : World) : World :=
  mkWorld (<[this := p]> (props w)) (card_deck w).

(** The four drawing methods, to state what they share. *)
Inductive DrawMethod : Type :=
  | Draw | DrawFromBottom | DrawToDiscard | DrawToDiscardFromBottom.

Definition run_draw (m : DrawMethod) : DeckId → Z → M (list Card) :=
  match m with
  | Draw => Deck.draw
  | DrawFromBottom => Deck.drawFromBottom
  | DrawToDiscard => Deck.drawToDiscard
  | DrawToDiscardFromBottom => Deck.drawToDiscardFromBottom
  end.

(** What a draw of [count] cards does to a non-empty draw pile, per method:
    the cards returned and the piles afterwards. *)
Definition drawn (p : Props) (m : DrawMethod) (count : Z) : list Card :=
  let k := Nat.min (Z.to_nat count) (length (deck p)) in
  match m with
  | Draw | DrawToDiscard => take k (deck p)
  | DrawFromBottom | DrawToDiscardFromBottom =>
      reverse (drop (length (deck p) - k) (deck p))
  end.

Definition after_draw (p : Props) (m : DrawMethod) (count : Z) : Props :=
  let k := Nat.min (Z.to_nat count) (length (deck p)) in
  match m with
  | Draw => mkProps (cards p) (drop k (deck p)) (held p ++ drawn p m count) (discard p)
  | DrawToDiscard => mkProps (cards p) (drop k (deck p)) (held p) (discard p ++ drawn p m count)
  | DrawFromBottom =>
      mkProps (cards p) (take (length (deck p) - k) (deck p)) (held p ++ drawn p m count)
              (discard p)
  | DrawToDiscardFromBottom =>
      mkProps (cards p) (take (length (deck p) - k) (deck p)) (held p)
              (discard p ++ drawn p m count)
  end.

(** The piles and the set of a deck after [remove(card)] and after
    [add(card, pile)]. *)
Definition after_remove (p : Props) (card : Card) : Props :=
  mkProps (JSSet.delete (cards p) card) (remove (deck p) card)
          (remove (held p) card) (remove (discard p) card).

Definition after_add (pile : string) (p : Props) (card : Card) : Props :=
  pile_push pile card (mkProps (JSSet.add (cards p) card) (deck p) (held p) (discard p)).

(** [_props[pile]] for a name in [piles]. *)
Definition pile_get (pile : string) (p : Props) : list Card :=
  if decide (pile = "deck"%string) then deck p
  else if decide (pile = "discard"%string) then discard p
  else held p.

(** ** The pile invariant *)

(** How often a card occurs in a pile. *)
Definition occurrences (l : list Card) (c : Card) : nat := count_occ Nat.eq_dec l c.

(** The invariant as the spec words it: every card of the set is in exactly
    one pile, once, and the piles together are as long as the set is large. *)
Definition placed_once (p : Props) (c : Card) : Prop :=
  occurrences (deck p) c + occurrences (held p) c + occurrences (discard p) c = 1.

Definition piles_partition (p : Props) : Prop :=
  (∀ c, JSSet.has (cards p) c = true → placed_once p c)
  ∧ length (deck p) + length (held p) + length (discard p) = JSSet.size (cards p).

(** The form the proofs carry: the piles, one after the other, are a
    rearrangement of the elements of the set. *)
Definition deck_inv (p : Props) : Prop :=
  JSSet.wf (cards p)
  ∧ Permutation (JSSet.values (cards p)) (deck p ++ held p ++ discard p).

(** No deck of the store has the card in its set. *)
Definition unowned (w : World) (c : Card) : Prop :=
  ∀ d p, props w !! d = Some p → JSSet.has (cards p) c = false.

(** Every deck of the store keeps its piles in order, and no card is in
    the sets of two decks. *)
Definition world_inv (w : World) : Prop :=
  (∀ d p, props w !! d = Some p → deck_inv p)
  ∧ (∀ d1 d2 p1 p2 c, d1 ≠ d2 →
       props w !! d1 = Some p1 → props w !! d2 = Some p2 →
       JSSet.has (cards p1) c = true → JSSet.has (cards p2) c = false).

(** Every deck of the store has each element of its set stored once. *)
Definition sets_wf (w : World) : Prop :=
  ∀ d p, props w !! d = Some p → JSSet.wf (cards p).

(** The calls a client can make. *)
Inductive Call : Type :=
  | CNew (cards : list Card)
  | CAdd (this : DeckId) (card : Card) (pile : string)
  | CRemove (this : DeckId) (card : Card)
  | CMerge (this other : DeckId) (pile : string)
  | CDraw (m : DrawMethod) (this : DeckId) (count : Z)
  | CDiscard (this : DeckId) (card : Value)
  | CLocateCard (this : DeckId) (card : Value)
  | CShuffleAll (shuffle : Shuffle) (this : DeckId)
  | CShuffleRemaining (shuffle : Shuffle) (this : DeckId)
  | CShuffleDiscard (shuffle : Shuffle) (this : DeckId)
  | CShuffleDeckAndDiscard (shuffle : Shuffle) (this : DeckId)
  | CDiscardAllHeld (this : DeckId)
  | CFindCards (this : DeckId) (filter : Card → bool)
  | CTotalLength (this : DeckId)
  | CRemainingLength (this : DeckId)
  | CHeld (this : DeckId)
  | CDiscarded (this : DeckId).

(** [run c w w']: the call [c] made in [w] ends, normally or by throwing,
    and leaves [w']. A call of [shuffle] permutes its array. *)
Definition run (c : Call) (w w' : World) : Prop :=
  match c with
  | CNew cards => w' = world_of (new_Deck cards w)
  | CAdd this card pile => w' = world_of (Deck.add this card pile w)
  | CRemove this card => w' = world_of (Deck.remove this card w)
  | CMerge this other pile =>
      ∃ fuel r, Deck.merge fuel this other pile w = Some r ∧ w' = world_of r
  | CDraw m this count => w' = world_of (run_draw m this count w)
  | CDiscard this card => w' = world_of (Deck.discard this card w)
  | CLocateCard this card => w' = world_of (Deck.locateCard this card w)
  | CShuffleAll shuffle this =>
      is_shuffle shuffle ∧ w' = world_of (Deck.shuffleAll shuffle this w)
  | CShuffleRemaining shuffle this =>
      is_shuffle shuffle ∧ w' = world_of (Deck.shuffleRemaining shuffle this w)
  | CShuffleDiscard shuffle this =>
      is_shuffle shuffle ∧ w' = world_of (Deck.shuffleDiscard shuffle this w)
  | CShuffleDeckAndDiscard shuffle this =>
      is_shuffle shuffle ∧ w' = world_of (Deck.shuffleDeckAndDiscard shuffle this w)
  | CDiscardAllHeld this => w' = world_of (Deck.discardAllHeld this w)
  | CFindCards this filter => w' = world_of (Deck.findCards this filter w)
  | CTotalLength this => w' = world_of (Deck.totalLength this w)
  | CRemainingLength this => w' = world_of (Deck.remainingLength this w)
  | CHeld this => w' = world_of (Deck.held this w)
  | CDiscarded this => w' = world_of (Deck.discarded this w)
  end.

(** The stores reached from the empty one by calls that [allowed] admits. *)
Inductive reachable (allowed : Call → World → Prop) : World → Prop :=
  | reachable_empty : reachable allowed empty_world
  | reachable_step c w w' :
      reachable allowed w → allowed c w → run c w w' → reachable allowed w'.

Definition any_call : Call → World → Prop := fun _ _ => True.

(** Calls that hand a deck only cards no deck has: [new Deck] gets distinct
    cards that belong to no deck, [add] gets a card that belongs to no
    deck. *)
Definition fresh_cards_only (c : Call) (w : World) : Prop :=
  match c with
  | CNew cards => NoDup cards ∧ ∀ card, card ∈ cards → unowned w card
  | CAdd this card pile => unowned w card
  | _ => True
  end.

(** ** Fixtures: small stores the statements below are tried on *)

(** [new Deck([A])] with [A = 7]. *)
Definition one_card : World := world_of (new_Deck [7] empty_world).

(** [new Deck([A])] followed by [draw(1)], with the card [A = 7]. *)
Definition one_card_drawn : World :=
  world_of ((do this <- new_Deck [7]; Deck.draw this 1) empty_world).

(** [new Deck([1, 2, 3])] and then [new Deck([4, 5])]. *)
Definition two_decks : World :=
  world_of ((new_Deck [1; 2; 3] ;; new_Deck [4; 5]) empty_world).

(** [new Deck([A])], [add(A)], [remove(A)] with [A = 7]: the set is empty
    and the draw pile still holds the second copy. *)
Definition removed_once : World :=
  world_of ((do this <- new_Deck [7]; Deck.add this 7 "deck" ;; Deck.remove this 7) empty_world).

(** [new Deck([A])], [add(A, 'discard')] with [A = 7]: the card is in the
    draw pile and in the discard pile. *)
Definition twice_added : World :=
  world_of ((do this <- new_Deck [7]; Deck.add this 7 "discard") empty_world).

(** [new Deck([9, 2, 3, 1])], [draw(1)], [drawToDiscard(2)]: the draw pile
    is [1], the held pile [9] and the discard pile [2, 3]. *)
Definition three_piles : World :=
  world_of ((do this <- new_Deck [9; 2; 3; 1];
             Deck.draw this 1 ;; Deck.drawToDiscard this 2) empty_world).

(** [new Deck([1, 2, 3])], then [new Deck([4, 5, 6])] whose draw pile is
    reversed by [shuffleRemaining] and which draws one card: its set
    iterates as [4, 5, 6], its draw pile is [5, 4] and its held pile [6]. *)
Definition reversed_deck : World :=
  world_of ((new_Deck [1; 2; 3] ;;
             do other <- new_Deck [4; 5; 6];
             Deck.shuffleRemaining reverse other ;; Deck.draw other 1) empty_world).

(** ** Members and piles *)

(** The three piles of a deck, one after the other. *)
Definition piles_of (p : Props) : list Card := deck p ++ held p ++ discard p.

(** Every card of the set of a deck is in one of its piles, for every deck
    of the store: what [locateCard] relies on when it calls its last
    [throw] unreachable. *)
Definition members_placed (w : World) : Prop :=
  ∀ d p c, props w !! d = Some p → JSSet.has (cards p) c = true → c ∈ piles_of p.

Local Open Scope Z_scope.

(** ** Arrays: [indexOf], [splice] and the [remove] helper *)

Section arrays.
Implicit Types (a : list Card) (v : Card).

Lemma indexOf_range a v : -1 ≤ indexOf a v < Z.of_nat (length a).
Proof.
  induction a as [|x r IH]; cbn [indexOf length]; [lia|].
  case_decide; [lia|].
  destruct (Z.ltb_spec (indexOf r v) 0); lia.
Qed.

Lemma indexOf_elem a v : 0 ≤ indexOf a v ↔ v ∈ a.
Proof.
  induction a as [|x r IH]; cbn [indexOf].
  - split; [lia|]. by intros ?%elem_of_nil.
  - rewrite elem_of_cons. case_decide as Hx.
    + subst. split; [by left|lia].
    + destruct (Z.ltb_spec (indexOf r v) 0) as [Hlt|Hge].
      * split; [lia|]. intros [?|Hr]; [congruence|]. apply IH in Hr. lia.
      * split; [|lia]. intros _. right. apply IH. lia.
Qed.

Lemma indexOf_not_elem a v : v ∉ a → indexOf a v = -1.
Proof.
  intros Hv. pose proof (indexOf_range a v).
  destruct (decide (0 ≤ indexOf a v)) as [H0|]; [|lia].
  by apply indexOf_elem in H0.
Qed.

Lemma splice_front a count :
  0 ≤ count →
  splice a 0 count = (take (Z.to_nat count) a, drop (Z.to_nat count) a).
Proof.
  intros Hc. unfold splice. cbn [Z.ltb Z.compare].
  rewrite (Z.min_l 0), (Z.max_l count), Z.sub_0_r by lia.
  change (Z.to_nat 0) with 0%nat. rewrite drop_0, take_0. cbn [app Nat.add].
  destruct (Z.min_spec count (Z.of_nat (length a))) as [[? ->]|[? ->]]; [done|].
  rewrite Nat2Z.id, firstn_all, drop_all.
  by rewrite take_ge, drop_ge by lia.
Qed.

Lemma splice_back a count :
  0 ≤ count →
  let k := Nat.min (Z.to_nat count) (length a) in
  splice a (Z.max (Z.of_nat (length a) - count) 0) count
  = (drop (length a - k) a, take (length a - k) a).
Proof.
  intros Hc k. unfold splice.
  destruct (Z.ltb_spec (Z.max (Z.of_nat (length a) - count) 0) 0); [lia|].
  rewrite (Z.min_l (Z.max (Z.of_nat (length a) - count) 0)), (Z.max_l count) by lia.
  assert (Z.to_nat (Z.max (Z.of_nat (length a) - count) 0) = (length a - k)%nat) as -> by lia.
  assert (Z.to_nat (Z.min count (Z.of_nat (length a) - Z.max (Z.of_nat (length a) - count) 0)) = k)
    as -> by lia.
  replace (length a - k + k)%nat with (length a) by lia.
  rewrite drop_all, app_nil_r.
  f_equal. apply take_ge. rewrite length_drop. lia.
Qed.

Lemma splice_one a i :
  0 ≤ i < Z.of_nat (length a) →
  snd (splice a i 1) = take (Z.to_nat i) a ++ drop (S (Z.to_nat i)) a.
Proof.
  intros Hi. unfold splice. cbn [snd].
  destruct (Z.ltb_spec i 0); [lia|].
  rewrite (Z.min_l i), (Z.max_l 1) by lia.
  rewrite (Z.min_l 1) by lia. change (Z.to_nat 1) with 1%nat.
  by rewrite Nat.add_1_r.
Qed.

Lemma remove_nil v : remove [] v = [].
Proof. done. Qed.

Lemma remove_cons x a v :
  remove (x :: a) v = if decide (x = v) then a else x :: remove a v.
Proof.
  unfold remove. cbn [indexOf]. case_decide as Hx.
  - cbn [Z.geb Z.compare]. rewrite splice_one by (cbn [length]; lia). done.
  - destruct (Z.ltb_spec (indexOf a v) 0) as [Hlt|Hge].
    + cbn [Z.geb Z.compare]. destruct (Z.geb_spec (indexOf a v) 0); [lia|done].
    + destruct (Z.geb_spec (indexOf a v + 1) 0); [|lia].
      destruct (Z.geb_spec (indexOf a v) 0); [|lia].
      pose proof (indexOf_range a v).
      rewrite !splice_one by (cbn [length]; lia).
      replace (Z.to_nat (indexOf a v + 1)) with (S (Z.to_nat (indexOf a v))) by lia.
      done.
Qed.

Lemma remove_not_elem a v : v ∉ a → remove a v = a.
Proof.
  induction a as [|x r IH]; [done|].
  rewrite not_elem_of_cons, remove_cons. intros [? ?].
  case_decide; [congruence|]. by rewrite IH.
Qed.

Lemma remove_head a v : remove (v :: a) v = a.
Proof. rewrite remove_cons. by case_decide. Qed.

Lemma filter_ne_not_elem a v : v ∉ a → filter (λ x, x ≠ v) a = a.
Proof.
  induction a as [|x r IH]; [done|].
  rewrite not_elem_of_cons. intros [? ?].
  rewrite filter_cons_True by done. by rewrite IH.
Qed.

Lemma remove_filter a v : NoDup a → remove a v = filter (λ x, x ≠ v) a.
Proof.
  induction 1 as [|x r Hx Hr IH]; [done|].
  rewrite remove_cons, filter_cons. case_decide as Hxv.
  - subst. rewrite decide_False by (intros Hne; by apply Hne).
    by rewrite filter_ne_not_elem.
  - rewrite decide_True by done. by rewrite IH.
Qed.

Lemma remove_app_l a b v : v ∈ a → remove (a ++ b) v = remove a v ++ b.
Proof.
  induction a as [|x r IH]; [by intros ?%elem_of_nil|].
  intros Hv. cbn [app]. rewrite !remove_cons. case_decide; [done|].
  apply elem_of_cons in Hv as [?|?]; [congruence|]. cbn [app]. by rewrite IH.
Qed.

Lemma remove_app_r a b v : v ∉ a → remove (a ++ b) v = a ++ remove b v.
Proof.
  induction a as [|x r IH]; [done|].
  rewrite not_elem_of_cons. intros [? ?]. cbn [app]. rewrite remove_cons.
  case_decide; [congruence|]. by rewrite IH.
Qed.

Lemma remove_Permutation a v : v ∈ a → Permutation a (v :: remove a v).
Proof.
  induction a as [|x r IH]; [by intros ?%elem_of_nil|].
  intros Hv. rewrite remove_cons. case_decide; [by subst|].
  apply elem_of_cons in Hv as [?|?]; [congruence|].
  rewrite (IH H0) at 1. apply perm_swap.
Qed.

Lemma remove_length a v : v ∈ a → S (length (remove a v)) = length a.
Proof. intros Hv. by rewrite (Permutation_length (remove_Permutation a v Hv)). Qed.

End arrays.

(** ** Sets: what [has], [add] and [delete] do to the elements *)

Section sets.
Implicit Types (s : JSSet.t) (v : Card).

Lemma JSSet_has_values s v : JSSet.has s v = true ↔ v ∈ JSSet.values s.
Proof.
  unfold JSSet.has, JSSet.values. rewrite bool_decide_eq_true, list_elem_of_omap.
  split; [intros ?; by exists (Some v)|].
  by intros ([x|] & ? & [= <-]).
Qed.

Lemma JSSet_has_false s v : JSSet.has s v = false ↔ v ∉ JSSet.values s.
Proof. rewrite <- JSSet_has_values. by destruct (JSSet.has s v). Qed.

Lemma JSSet_values_app s1 s2 :
  JSSet.values (s1 ++ s2) = JSSet.values s1 ++ JSSet.values s2.
Proof. apply omap_app. Qed.

Lemma JSSet_values_add s v :
  JSSet.values (JSSet.add s v)
  = if JSSet.has s v then JSSet.values s else JSSet.values s ++ [v].
Proof. unfold JSSet.add. destruct (JSSet.has s v); [done|]. by rewrite JSSet_values_app. Qed.

Lemma JSSet_has_add s v v' :
  JSSet.has (JSSet.add s v) v' = true ↔ v' = v ∨ JSSet.has s v' = true.
Proof.
  rewrite !JSSet_has_values, JSSet_values_add.
  destruct (JSSet.has s v) eqn:Hv.
  - apply JSSet_has_values in Hv. split; [tauto|]. intros [->|?]; done.
  - rewrite elem_of_app, list_elem_of_singleton. tauto.
Qed.

Lemma JSSet_values_delete s v :
  JSSet.values (JSSet.delete s v) = remove (JSSet.values s) v.
Proof.
  induction s as [|[x|] r IH]; cbn [JSSet.delete]; [done| |].
  - unfold JSSet.values in *. cbn [omap option_bind id mbind]. simpl.
    rewrite remove_cons. case_decide as Hx.
    + injection Hx as ->. rewrite decide_True by done. done.
    + rewrite decide_False by congruence. simpl. f_equal. apply IH.
  - case_decide; [done|]. apply IH.
Qed.

Lemma JSSet_wf_add s v : JSSet.wf s → JSSet.wf (JSSet.add s v).
Proof.
  unfold JSSet.wf. rewrite JSSet_values_add. destruct (JSSet.has s v) eqn:Hv; [done|].
  intros Hs. apply NoDup_app. split_and!; [done| |apply NoDup_singleton].
  intros x Hx ->%list_elem_of_singleton. by apply JSSet_has_false in Hv.
Qed.

Lemma remove_subseteq (a : list Card) v x : x ∈ remove a v → x ∈ a.
Proof.
  induction a as [|y r IH]; [done|]. rewrite remove_cons.
  case_decide; rewrite ?elem_of_cons; tauto.
Qed.

Lemma remove_NoDup (a : list Card) v : NoDup a → NoDup (remove a v).
Proof.
  induction 1 as [|y r Hy Hr IH]; [apply NoDup_nil_2|].
  rewrite remove_cons. case_decide; [done|].
  apply NoDup_cons. split; [|done]. intros ?%remove_subseteq. done.
Qed.

Lemma remove_elem (a : list Card) v x : NoDup a → x ∈ remove a v ↔ x ∈ a ∧ x ≠ v.
Proof.
  intros Ha. rewrite remove_filter by done. rewrite list_elem_of_filter. tauto.
Qed.

Lemma JSSet_wf_delete s v : JSSet.wf s → JSSet.wf (JSSet.delete s v).
Proof. unfold JSSet.wf. rewrite JSSet_values_delete. apply remove_NoDup. Qed.

Lemma JSSet_has_delete s v : JSSet.wf s → JSSet.has (JSSet.delete s v) v = false.
Proof.
  intros Hs. apply JSSet_has_false. rewrite JSSet_values_delete, remove_elem by done.
  tauto.
Qed.

Lemma JSSet_delete_absent s v : JSSet.has s v = false → JSSet.delete s v = s.
Proof.
  unfold JSSet.has. rewrite bool_decide_eq_false.
  induction s as [|e r IH]; [done|].
  rewrite not_elem_of_cons. intros [? ?]. cbn [JSSet.delete].
  rewrite decide_False by congruence. by rewrite IH.
Qed.

Lemma JSSet_size_delete s v :
  JSSet.has s v = true → S (JSSet.size (JSSet.delete s v)) = JSSet.size s.
Proof.
  intros Hv%JSSet_has_values. unfold JSSet.size.
  rewrite JSSet_values_delete. by apply remove_length.
Qed.

Lemma JSSet_length_delete s v : length (JSSet.delete s v) = length s.
Proof.
  induction s as [|e r IH]; [done|]. cbn [JSSet.delete].
  case_decide; cbn [length]; congruence.
Qed.

Lemma JSSet_of_list_acc (l : list Card) s :
  JSSet.wf s → JSSet.wf (fold_left JSSet.add l s)
  ∧ (NoDup l → (∀ x, x ∈ l → x ∉ JSSet.values s) →
     JSSet.values (fold_left JSSet.add l s) = JSSet.values s ++ l).
Proof.
  revert s. induction l as [|x l IH]; intros s Hs; cbn [fold_left].
  - split; [done|]. intros. by rewrite app_nil_r.
  - destruct (IH (JSSet.add s x) (JSSet_wf_add s x Hs)) as [IH1 IH2].
    split; [done|]. intros [Hx Hl]%NoDup_cons Hfresh.
    rewrite IH2; [|done|].
    + rewrite JSSet_values_add.
      assert (JSSet.has s x = false) as -> by (apply JSSet_has_false, Hfresh; left).
      by rewrite <- app_assoc.
    + intros y Hy. rewrite JSSet_values_add.
      assert (JSSet.has s x = false) as -> by (apply JSSet_has_false, Hfresh; left).
      rewrite elem_of_app, list_elem_of_singleton.
      intros [?| ->]; [|done]. eapply Hfresh; [by right|done].
Qed.

Lemma JSSet_wf_of_list (l : list Card) : JSSet.wf (JSSet.of_list l).
Proof. apply JSSet_of_list_acc. apply NoDup_nil_2. Qed.

Lemma JSSet_values_of_list (l : list Card) :
  NoDup l → JSSet.values (JSSet.of_list l) = l.
Proof.
  intros Hl. unfold JSSet.of_list.
  destruct (JSSet_of_list_acc l [] (NoDup_nil_2)) as [_ ->]; [done|done|].
  intros x _. apply not_elem_of_nil.
Qed.

End sets.

(** ** What the drawing methods return *)

Lemma take_min_length {A} (k : nat) (l : list A) :
  take (Nat.min k (length l)) l = take k l.
Proof.
  destruct (Nat.min_spec k (length l)) as [[? ->]|[? ->]]; [done|].
  by rewrite firstn_all, take_ge by lia.
Qed.

Lemma drop_min_length {A} (k : nat) (l : list A) :
  drop (Nat.min k (length l)) l = drop k l.
Proof.
  destruct (Nat.min_spec k (length l)) as [[? ->]|[? ->]]; [done|].
  by rewrite drop_all, drop_ge by lia.
Qed.

Section running.
Context (w : World) (this : DeckId) (p : Props).
Hypothesis Hp : props w !! this = Some p.

Lemma bind_props_get {A} (k : Props → M A) :
  (do q <- props_get this; k q) w = k p w.
Proof using Hp. unfold bind, props_get. by rewrite Hp. Qed.

Lemma with_props_lookup q : props (with_props this q w) !! this = Some q.
Proof. apply lookup_insert_eq. Qed.

Lemma with_props_lookup_ne q other :
  other ≠ this → props (with_props this q w) !! other = props w !! other.
Proof. intros. by apply lookup_insert_ne. Qed.

Lemma with_props_same : with_props this (mkProps (cards p) (deck p) (held p) (discard p)) w = w.
Proof using Hp.
  unfold with_props. destruct w as [ps cd], p. cbn in *. by rewrite insert_id.
Qed.

Lemma deck_empty_decide :
  bool_decide (length (deck p) = 0%nat) = bool_decide (deck p = []).
Proof. apply bool_decide_ext. by destruct (deck p). Qed.

Lemma run_draw_empty m count :
  deck p = [] → run_draw m this count w = Throw EmptyDeckError w.
Proof using Hp.
  intros Hd. destruct m; cbn [run_draw];
    unfold Deck.draw, Deck.drawFromBottom, Deck.drawToDiscard, Deck.drawToDiscardFromBottom;
    rewrite bind_props_get, Hd; done.
Qed.

Lemma run_draw_negative m count :
  deck p ≠ [] → count < 0 → run_draw m this count w = Normal [] w.
Proof using Hp.
  intros Hd Hc. destruct m; cbn [run_draw];
    unfold Deck.draw, Deck.drawFromBottom, Deck.drawToDiscard, Deck.drawToDiscardFromBottom;
    rewrite bind_props_get, deck_empty_decide, bool_decide_eq_false_2 by done;
    destruct (Z.ltb_spec count 0); (done || lia).
Qed.

Lemma run_draw_nonneg m count :
  deck p ≠ [] → 0 ≤ count →
  run_draw m this count w
  = Normal (drawn p m count) (with_props this (after_draw p m count) w).
Proof using Hp.
  intros Hd Hc. destruct m; cbn [run_draw];
    unfold Deck.draw, Deck.drawFromBottom, Deck.drawToDiscard, Deck.drawToDiscardFromBottom;
    rewrite bind_props_get, deck_empty_decide, bool_decide_eq_false_2 by done;
    (destruct (Z.ltb_spec count 0); [lia|]);
    rewrite ?splice_back, ?splice_front by done;
    unfold after_draw, drawn, push;
    rewrite ?take_min_length, ?drop_min_length; done.
Qed.

End running.

(** ** The constructor *)

Lemma props_fold_set_card_deck (this : DeckId) (cs : list Card) (w : World) :
  props (fold_left (fun w' card => world_of (set_card_deck card (Some this) w')) cs w)
  = props w.
Proof. revert w. induction cs as [|c cs IH]; intros w; cbn [fold_left]; [done|]. by rewrite IH. Qed.

Lemma new_Deck_spec (cs : list Card) (w : World) :
  ∃ w', new_Deck cs w = Normal (fresh (dom (props w))) w'
        ∧ props w !! fresh (dom (props w)) = None
        ∧ props w' = <[fresh (dom (props w)) := mkProps (JSSet.of_list cs) cs [] []]> (props w).
Proof.
  eexists. split; [reflexivity|]. split.
  - apply not_elem_of_dom, is_fresh.
  - by rewrite props_fold_set_card_deck.
Qed.

(** ** The accessors *)

Lemma held_getter (w : World) (this : DeckId) (p : Props) :
  props w !! this = Some p → Deck.held this w = Normal (discard p) w.
Proof. intros Hp. unfold Deck.held. by rewrite (bind_props_get w this p). Qed.

Lemma discarded_getter (w : World) (this : DeckId) (p : Props) :
  props w !! this = Some p → Deck.discarded this w = Normal (discard p) w.
Proof. intros Hp. unfold Deck.discarded. by rewrite (bind_props_get w this p). Qed.

(** ** [add] and [remove] *)

Lemma remove_spec (w : World) (this : DeckId) (p : Props) (card : Card) :
  props w !! this = Some p →
  Deck.remove this card w
  = Normal tt (mkWorld (<[this := after_remove p card]> (props w))
                       (partial_alter (fun _ => None) card (card_deck w))).
Proof. intros Hp. unfold Deck.remove. by rewrite (bind_props_get w this p Hp). Qed.

Lemma add_invalid_pile (w : World) (this : DeckId) (card : Card) (pile : string) :
  piles_has pile = false → Deck.add this card pile w = Throw InvalidPileError w.
Proof. intros Hpile. unfold Deck.add. by rewrite Hpile. Qed.

Lemma add_spec (w : World) (this : DeckId) (p : Props) (card : Card) (pile : string) :
  piles_has pile = true →
  props w !! this = Some p →
  Deck.add this card pile w
  = Normal tt (mkWorld (<[this := after_add pile p card]> (props w))
                       (partial_alter (fun _ => Some this) card (card_deck w))).
Proof. intros Hpile Hp. unfold Deck.add. rewrite Hpile. cbn. by rewrite Hp. Qed.

Lemma add_no_deck (w : World) (this : DeckId) (card : Card) (pile : string) :
  piles_has pile = true →
  props w !! this = None →
  Deck.add this card pile w
  = Throw JSTypeError (mkWorld (props w) (partial_alter (fun _ => Some this) card (card_deck w))).
Proof. intros Hpile Hp. unfold Deck.add. rewrite Hpile. cbn. by rewrite Hp. Qed.

(** ** [merge]: the loop over the live set *)

Local Close Scope Z_scope.

Lemma JSSet_values_cons (s : JSSet.t) (v : Card) (vs : list Card) :
  JSSet.values s = v :: vs →
  ∃ n s', s = replicate n None ++ Some v :: s' ∧ JSSet.values s' = vs.
Proof.
  induction s as [|[x|] r IH]; [done| |].
  - intros [= -> <-]. by exists 0, r.
  - intros (n & s' & -> & <-)%IH. by exists (S n), s'.
Qed.

Lemma lookup_replicate_None_app {A} (n i : nat) (l : list (option A)) :
  i < n → (replicate n None ++ l) !! i = Some None.
Proof.
  intros Hi. rewrite lookup_app_l by (rewrite length_replicate; lia).
  by apply lookup_replicate_2.
Qed.

Lemma lookup_replicate_None_app_ge {A} (n : nat) (l : list (option A)) :
  (replicate n None ++ l) !! n = l !! 0.
Proof. rewrite lookup_app_r by (rewrite length_replicate; lia). rewrite length_replicate. by rewrite Nat.sub_diag. Qed.

Lemma JSSet_delete_replicate (n : nat) (v : Card) (s : JSSet.t) :
  JSSet.delete (replicate n None ++ Some v :: s) v = replicate (S n) None ++ s.
Proof.
  induction n as [|n IH]; cbn [replicate app JSSet.delete].
  - by rewrite decide_True.
  - rewrite decide_False by done. by rewrite IH.
Qed.

(** The empty entries before the first element cost one iteration each. *)
Lemma merge_forEach_skip (this other : DeckId) (pile : string) (w : World)
    (po : Props) (n : nat) (s' : JSSet.t) :
  props w !! other = Some po →
  cards po = replicate n None ++ s' →
  ∀ k i fuel, i + k = n →
    Deck.merge_forEach (fuel + k) this other pile i w
    = Deck.merge_forEach fuel this other pile n w.
Proof.
  intros Hpo Hcards. induction k as [|k IH]; intros i fuel Hik.
  - rewrite Nat.add_0_r in *. by subst.
  - rewrite Nat.add_succ_r. cbn [Deck.merge_forEach].
    rewrite Hpo, Hcards, lookup_replicate_None_app by lia.
    apply IH. lia.
Qed.

Lemma filter_is_card_remove (l : list Card) (card : Card) :
  NoDup l → List.filter (fun c => bool_decide (c = card)) (remove l card) = [].
Proof.
  induction 1 as [|x l Hx Hl IH]; [done|].
  rewrite remove_cons. case_decide as Hxc.
  - subst. clear IH. induction l as [|y l IH]; [done|].
    apply not_elem_of_cons in Hx as [? ?]. apply NoDup_cons in Hl as [? ?].
    cbn [List.filter]. rewrite bool_decide_eq_false_2 by done. by apply IH.
  - cbn [List.filter]. by rewrite bool_decide_eq_false_2.
Qed.

(** ** [discard] *)

Lemma discard_card_spec (w : World) (this : DeckId) (p : Props) (card : Card) :
  props w !! this = Some p →
  Deck.discard_card this card w
  = if negb (JSSet.has (cards p) card) then Throw NotMemberError w
    else if bool_decide (card ∈ deck p) then
      Normal tt (with_props this
                   (mkProps (cards p) (remove (deck p) card) (held p) (discard p ++ [card])) w)
    else if bool_decide (card ∈ held p) then
      Normal tt (with_props this
                   (mkProps (cards p) (deck p) (remove (held p) card) (discard p ++ [card])) w)
    else Normal tt w.
Proof.
  intros Hp. unfold Deck.discard_card. rewrite (bind_props_get w this p Hp).
  destruct (JSSet.has (cards p) card); cbn [negb]; [|done].
  unfold remove, push.
  destruct (Z.geb_spec (indexOf (deck p) card) 0) as [Hd|Hd].
  { rewrite bool_decide_eq_true_2 by (by apply indexOf_elem). done. }
  rewrite bool_decide_eq_false_2 by (rewrite <- indexOf_elem; lia).
  destruct (Z.geb_spec (indexOf (held p) card) 0) as [Hh|Hh].
  { rewrite bool_decide_eq_true_2 by (by apply indexOf_elem). done. }
  rewrite bool_decide_eq_false_2 by (rewrite <- indexOf_elem; lia). done.
Qed.

(** ** [merge] against an iteration over a snapshot *)

Lemma bind_Normal {A B} (m : M A) (k : A → M B) (w w' : World) (a : A) :
  m w = Normal a w' → bind m k w = k a w'.
Proof. unfold bind. by intros ->. Qed.

Lemma bind_Throw {A B} (m : M A) (k : A → M B) (w w' : World) (e : Error) :
  m w = Throw e w' → bind m k w = Throw e w'.
Proof. unfold bind. by intros ->. Qed.

Lemma replicate_None_snoc {A} (n : nat) (l : list (option A)) :
  replicate n None ++ None :: l = replicate (S n) None ++ l.
Proof. induction n as [|n IH]; [done|]. cbn [replicate app]. by rewrite IH. Qed.

Section merging.
Context (this other : DeckId) (pile : string).

(** One turn of the callback of [merge]. *)
Lemma callback_other (w w' : World) (po : Props) (card : Card) :
  this ≠ other →
  props w !! other = Some po →
  (Deck.remove other card ;; Deck.add this card pile) w = Normal tt w' →
  props w' !! other = Some (after_remove po card).
Proof.
  intros Hne Hpo. unfold bind. rewrite (remove_spec w other po card Hpo).
  destruct (piles_has pile) eqn:Hpile; [|by rewrite add_invalid_pile].
  match goal with |- Deck.add _ _ _ ?w1 = _ → _ => set (w1' := w1) end.
  destruct (props w1' !! this) as [pt|] eqn:Hpt.
  - rewrite (add_spec w1' this pt card pile Hpile Hpt). intros [= <-]. cbn [props].
    rewrite lookup_insert_ne by done. apply lookup_insert_eq.
  - by rewrite (add_no_deck w1' this card pile Hpile Hpt).
Qed.

Lemma callback_spec (w : World) (pt po : Props) (card : Card) :
  this ≠ other →
  piles_has pile = true →
  props w !! this = Some pt →
  props w !! other = Some po →
  (Deck.remove other card ;; Deck.add this card pile) w
  = Normal tt
      (mkWorld (<[this := after_add pile pt card]> (<[other := after_remove po card]> (props w)))
               (partial_alter (fun _ => Some this) card
                  (partial_alter (fun _ => None) card (card_deck w)))).
Proof.
  intros Hne Hpile Hpt Hpo. unfold bind. rewrite (remove_spec w other po card Hpo).
  rewrite (add_spec _ this pt card pile Hpile); [done|].
  cbn [props]. by rewrite lookup_insert_ne.
Qed.

(** Between two different decks the loop over the live set visits what a
    snapshot lists: the entries before [index] are empty, the ones from
    [index] on are as they were. *)
Lemma merge_forEach_snapshot :
  this ≠ other →
  ∀ (rest : JSSet.t) (n : nat) (w : World) (po : Props) (fuel : nat),
    props w !! other = Some po →
    cards po = replicate n None ++ rest →
    length rest < fuel →
    Deck.merge_forEach fuel this other pile n w
    = Some (forEach_snapshot this other pile (JSSet.values rest) w).
Proof.
  intros Hne. induction rest as [|[card|] rest IH]; intros n w po fuel Hpo Hcards Hfuel;
    (destruct fuel as [|fuel]; [cbn [length] in Hfuel; lia|]);
    cbn [Deck.merge_forEach]; rewrite Hpo, Hcards, lookup_replicate_None_app_ge;
    cbn [lookup list_lookup].
  - done.
  - change (JSSet.values (Some card :: rest)) with (card :: JSSet.values rest).
    cbn [forEach_snapshot].
    destruct ((Deck.remove other card ;; Deck.add this card pile) w) as [[] w'|e w'] eqn:Hcb;
      [rewrite (bind_Normal _ _ _ _ _ Hcb)|by rewrite (bind_Throw _ _ _ _ _ Hcb)].
    apply (IH (S n) w' (after_remove po card)).
    + by apply (callback_other w w' po card).
    + cbn [after_remove cards]. rewrite Hcards. apply JSSet_delete_replicate.
    + cbn [length] in Hfuel. lia.
  - change (JSSet.values (None :: rest)) with (JSSet.values rest).
    apply (IH (S n) w po); [done| |cbn [length] in Hfuel; lia].
    rewrite Hcards. apply replicate_None_snoc.
Qed.

(** What the iteration over a snapshot leaves behind. *)
Lemma forEach_snapshot_spec :
  this ≠ other →
  piles_has pile = true →
  ∀ (vs : list Card) (w : World) (pt po : Props),
    props w !! this = Some pt →
    props w !! other = Some po →
    ∃ w', forEach_snapshot this other pile vs w = Normal tt w'
          ∧ props w' !! this = Some (fold_left (after_add pile) vs pt)
          ∧ props w' !! other = Some (fold_left after_remove vs po)
          ∧ (∀ d, d ≠ this → d ≠ other → props w' !! d = props w !! d)
          ∧ (∀ c, c ∈ vs → card_deck w' !! c = Some this)
          ∧ (∀ c, c ∉ vs → card_deck w' !! c = card_deck w !! c).
Proof.
  intros Hne Hpile. induction vs as [|card vs IH]; intros w pt po Hpt Hpo.
  - exists w. split_and!; try done. by intros c ?%elem_of_nil.
  - cbn [forEach_snapshot fold_left].
    rewrite (bind_Normal _ _ _ _ _ (callback_spec w pt po card Hne Hpile Hpt Hpo)).
    match goal with |- ∃ _, forEach_snapshot _ _ _ _ ?w1 = _ ∧ _ => set (w1' := w1) end.
    destruct (IH w1' (after_add pile pt card) (after_remove po card))
      as (w' & Hrun & Hthis & Hother & Hframe & Hown & Hkeep).
    { apply lookup_insert_eq. }
    { cbn [props w1']. rewrite lookup_insert_ne by done. apply lookup_insert_eq. }
    exists w'. split_and!; try done.
    + intros d ? ?. rewrite Hframe by done. cbn [props w1'].
      by rewrite !lookup_insert_ne.
    + intros c Hc. destruct (decide (c ∈ vs)) as [|Hvs]; [by apply Hown|].
      rewrite Hkeep by done. apply elem_of_cons in Hc as [->|]; [|done].
      cbn [card_deck w1']. apply lookup_partial_alter_eq.
    + intros c [? ?]%not_elem_of_cons. rewrite Hkeep by done. cbn [card_deck w1'].
      by rewrite !lookup_partial_alter_ne.
Qed.

End merging.

Lemma piles_has_cases (pile : string) :
  piles_has pile = true ↔ pile = "deck"%string ∨ pile = "discard"%string ∨ pile = "held"%string.
Proof.
  unfold piles_has, piles. rewrite bool_decide_eq_true, !elem_of_cons, elem_of_nil. tauto.
Qed.

Lemma cards_pile_push (pile : string) (card : Card) (p : Props) :
  cards (pile_push pile card p) = cards p.
Proof. unfold pile_push. by repeat case_decide. Qed.

Lemma pile_get_pile_push (pile : string) (card : Card) (p : Props) :
  piles_has pile = true →
  pile_get pile (pile_push pile card p) = pile_get pile p ++ [card].
Proof.
  intros Hpile%piles_has_cases. unfold pile_get, pile_push, push.
  destruct Hpile as [ -> | [ -> | -> ] ]; by repeat case_decide.
Qed.

Lemma pile_get_pile_push_ne (pile pile' : string) (card : Card) (p : Props) :
  piles_has pile' = true → pile' ≠ pile →
  pile_get pile' (pile_push pile card p) = pile_get pile' p.
Proof.
  intros Hpile%piles_has_cases Hne. unfold pile_get, pile_push, push.
  destruct Hpile as [ -> | [ -> | -> ] ]; by repeat case_decide.
Qed.

Lemma cards_fold_after_remove (vs : list Card) (p : Props) :
  cards (fold_left after_remove vs p) = fold_left JSSet.delete vs (cards p).
Proof. revert p. induction vs as [|v vs IH]; intros p; [done|]. cbn [fold_left]. by rewrite IH. Qed.

Lemma values_fold_delete (vs : list Card) (s : JSSet.t) :
  JSSet.values (fold_left JSSet.delete vs s) = fold_left remove vs (JSSet.values s).
Proof.
  revert s. induction vs as [|v vs IH]; intros s; [done|].
  cbn [fold_left]. by rewrite IH, JSSet_values_delete.
Qed.

Lemma fold_remove_self (l : list Card) : fold_left remove l l = [].
Proof. induction l as [|x l IH]; [done|]. cbn [fold_left]. by rewrite remove_head. Qed.

Lemma cards_fold_after_add (pile : string) (vs : list Card) (p : Props) :
  cards (fold_left (after_add pile) vs p) = fold_left JSSet.add vs (cards p).
Proof.
  revert p. induction vs as [|v vs IH]; intros p; [done|].
  cbn [fold_left]. rewrite IH. unfold after_add. by rewrite cards_pile_push.
Qed.

Lemma has_fold_add (vs : list Card) (s : JSSet.t) (c : Card) :
  JSSet.has (fold_left JSSet.add vs s) c = true ↔ JSSet.has s c = true ∨ c ∈ vs.
Proof.
  revert s. induction vs as [|v vs IH]; intros s; cbn [fold_left].
  - rewrite elem_of_nil. tauto.
  - rewrite IH, JSSet_has_add, elem_of_cons. tauto.
Qed.

Lemma pile_get_fold_after_add (pile : string) (vs : list Card) (p : Props) :
  piles_has pile = true →
  pile_get pile (fold_left (after_add pile) vs p) = pile_get pile p ++ vs.
Proof.
  intros Hpile. revert p. induction vs as [|v vs IH]; intros p; cbn [fold_left].
  - by rewrite app_nil_r.
  - rewrite IH. unfold after_add. rewrite pile_get_pile_push by done.
    rewrite <- app_assoc. f_equal.
Qed.

Lemma pile_get_fold_after_add_ne (pile pile' : string) (vs : list Card) (p : Props) :
  piles_has pile' = true → pile' ≠ pile →
  pile_get pile' (fold_left (after_add pile) vs p) = pile_get pile' p.
Proof.
  intros Hpile Hne. revert p. induction vs as [|v vs IH]; intros p; cbn [fold_left]; [done|].
  rewrite IH. unfold after_add. rewrite pile_get_pile_push_ne by done.
  unfold pile_get. by repeat case_decide.
Qed.

(** A deck merged into itself: every turn of the loop empties the entry it
    visits and appends the card again, so there is always one more entry. *)
Lemma merge_forEach_self (d : DeckId) (pile : string) (c : Card) :
  piles_has pile = true →
  ∀ (fuel n : nat) (w : World) (p : Props),
    props w !! d = Some p →
    cards p = replicate n None ++ [Some c] →
    Deck.merge_forEach fuel d d pile n w = None.
Proof.
  intros Hpile. induction fuel as [|fuel IH]; intros n w p Hp Hcards; [done|].
  cbn [Deck.merge_forEach]. rewrite Hp, Hcards, lookup_replicate_None_app_ge.
  cbn [lookup list_lookup].
  unfold bind. rewrite (remove_spec w d p c Hp).
  erewrite add_spec; [|done|apply lookup_insert_eq].
  eapply IH; [apply lookup_insert_eq|].
  unfold after_add. rewrite cards_pile_push. cbn [cards after_remove].
  rewrite Hcards, JSSet_delete_replicate.
  unfold JSSet.add.
  assert (JSSet.has (replicate (S n) None ++ []) c = false) as ->.
  { unfold JSSet.has. apply bool_decide_eq_false.
    rewrite app_nil_r. by intros [[=] _]%elem_of_replicate. }
  by rewrite <- app_assoc.
Qed.

(** ** The pile invariant, deck by deck *)

Section deck_invariant.
Implicit Types (p : Props) (c : Card).

Lemma deck_inv_NoDup p : deck_inv p → NoDup (deck p ++ held p ++ discard p).
Proof. intros [Hwf Hperm]. by rewrite <- Hperm. Qed.

Lemma deck_inv_partition p : deck_inv p → piles_partition p.
Proof.
  intros [Hwf Hperm]. split.
  - intros c Hc%JSSet_has_values. unfold placed_once, occurrences.
    assert (count_occ Nat.eq_dec (JSSet.values (cards p)) c = 1) as Hone
      by (apply NoDup_count_occ'; [by apply NoDup_ListNoDup|by apply list_elem_of_In]).
    rewrite (proj1 (Permutation_count_occ Nat.eq_dec _ _) Hperm c), !count_occ_app in Hone.
    rewrite <- Nat.add_assoc. exact Hone.
  - unfold JSSet.size. rewrite (Permutation_length Hperm), !length_app. lia.
Qed.

Lemma deck_inv_same_cards p p' :
  cards p' = cards p →
  Permutation (deck p' ++ held p' ++ discard p') (deck p ++ held p ++ discard p) →
  deck_inv p → deck_inv p'.
Proof. intros Hc Hperm [Hwf Hp]. split; rewrite Hc; [done|]. by rewrite Hperm. Qed.

Lemma deck_inv_after_draw p m count : deck_inv p → deck_inv (after_draw p m count).
Proof.
  apply deck_inv_same_cards; [by destruct m|].
  set (k := Nat.min (Z.to_nat count) (length (deck p))).
  assert (∀ j, (take j (deck p) ++ drop j (deck p)) ++ held p ++ discard p
               ≡ₚ deck p ++ held p ++ discard p) as Hsplit
    by (intros j; by rewrite take_drop).
  destruct m; cbn [after_draw drawn deck held discard]; fold k;
    rewrite ?reverse_Permutation.
  - rewrite <- (Hsplit k). solve_Permutation.
  - rewrite <- (Hsplit (length (deck p) - k)). solve_Permutation.
  - rewrite <- (Hsplit k). solve_Permutation.
  - rewrite <- (Hsplit (length (deck p) - k)). solve_Permutation.
Qed.

Lemma deck_inv_after_add pile p c :
  piles_has pile = true → JSSet.has (cards p) c = false →
  deck_inv p → deck_inv (after_add pile p c).
Proof.
  intros Hpile Hc [Hwf Hperm]. split.
  - unfold after_add. rewrite cards_pile_push. by apply JSSet_wf_add.
  - unfold after_add. rewrite cards_pile_push. cbn [cards].
    rewrite JSSet_values_add, Hc, Hperm.
    apply piles_has_cases in Hpile. destruct Hpile as [ -> | [ -> | -> ] ];
      unfold pile_push, push; repeat case_decide; try done;
      cbn [deck held discard]; solve_Permutation.
Qed.

Lemma deck_inv_after_remove p c : deck_inv p → deck_inv (after_remove p c).
Proof.
  intros Hinv. pose proof (deck_inv_NoDup p Hinv) as Hnd. destruct Hinv as [Hwf Hperm].
  apply NoDup_app in Hnd as (Hd & _ & (Hh & _ & Hdi)%NoDup_app).
  split; cbn [after_remove cards deck held discard].
  - by apply JSSet_wf_delete.
  - rewrite JSSet_values_delete, !remove_filter by done.
    rewrite <- !filter_app. by apply filter_Permutation.
Qed.

Lemma has_after_remove p c c' :
  JSSet.wf (cards p) →
  JSSet.has (cards (after_remove p c)) c' = true → JSSet.has (cards p) c' = true ∧ c' ≠ c.
Proof.
  intros Hwf. cbn [after_remove cards]. rewrite !JSSet_has_values, JSSet_values_delete.
  by rewrite remove_elem.
Qed.

Lemma has_after_add pile p c c' :
  JSSet.has (cards (after_add pile p c)) c' = true → c' = c ∨ JSSet.has (cards p) c' = true.
Proof. unfold after_add. rewrite cards_pile_push. cbn [cards]. by rewrite JSSet_has_add. Qed.

Lemma deck_inv_discard_from_deck p c :
  c ∈ deck p → deck_inv p →
  deck_inv (mkProps (cards p) (remove (deck p) c) (held p) (discard p ++ [c])).
Proof.
  intros Hc. apply deck_inv_same_cards; [done|]. cbn [deck held discard].
  rewrite (remove_Permutation (deck p) c Hc) at 2. solve_Permutation.
Qed.

Lemma deck_inv_discard_from_held p c :
  c ∈ held p → deck_inv p →
  deck_inv (mkProps (cards p) (deck p) (remove (held p) c) (discard p ++ [c])).
Proof.
  intros Hc. apply deck_inv_same_cards; [done|]. cbn [deck held discard].
  rewrite (remove_Permutation (held p) c Hc) at 2. solve_Permutation.
Qed.

Lemma deck_inv_new (cs : list Card) :
  NoDup cs → deck_inv (mkProps (JSSet.of_list cs) cs [] []).
Proof.
  intros Hcs. split; cbn [cards deck held discard].
  - apply JSSet_wf_of_list.
  - rewrite JSSet_values_of_list by done. by rewrite !app_nil_r.
Qed.

End deck_invariant.

(** ** Every call keeps the invariant *)

Lemma Value_nested_ind (P : Value → Prop) :
  (∀ c, P (VCard c)) → P VOther → (∀ vs, Forall P vs → P (VArray vs)) → ∀ v, P v.
Proof.
  intros Hc Ho Ha. fix IH 1. intros [c|vs|]; [apply Hc| |apply Ho].
  apply Ha. induction vs as [|v vs IHvs]; constructor; [apply IH|apply IHvs].
Qed.

Lemma discard_array_nil (this : DeckId) (w : World) :
  Deck.discard this (VArray []) w = Normal tt w.
Proof. done. Qed.

Lemma discard_array_cons (this : DeckId) (v : Value) (vs : list Value) (w : World) :
  Deck.discard this (VArray (v :: vs)) w
  = match Deck.discard this v w with
    | Normal _ w' => Deck.discard this (VArray vs) w'
    | Throw e w' => Throw e w'
    end.
Proof. done. Qed.

Lemma props_get_None {A} (this : DeckId) (k : Props → M A) (w : World) :
  props w !! this = None → (do p <- props_get this; k p) w = Throw JSTypeError w.
Proof. intros Hp. unfold bind, props_get. by rewrite Hp. Qed.

Lemma world_inv_props (w w' : World) : props w' = props w → world_inv w → world_inv w'.
Proof. intros Hprops. unfold world_inv. by rewrite Hprops. Qed.

Section world_invariant.
Context (w : World) (Hinv : world_inv w).

Lemma world_inv_insert (this : DeckId) (p' : Props) (cd : gmap Card DeckId) :
  deck_inv p' →
  (∀ c, JSSet.has (cards p') c = true →
        (∃ p, props w !! this = Some p ∧ JSSet.has (cards p) c = true) ∨ unowned w c) →
  world_inv (mkWorld (<[this := p']> (props w)) cd).
Proof using Hinv.
  destruct Hinv as [Hdecks Hdisjoint]. intros Hp' Hcards. split; cbn [props].
  - intros d p. rewrite lookup_insert. case_decide; [by intros [= <-]|by apply Hdecks].
  - intros d1 d2 p1 p2 c Hne. rewrite !lookup_insert.
    repeat case_decide; subst; try done.
    + intros [= <-] Hp2 Hc. destruct (Hcards c Hc) as [(p & Hp & Hpc)|Hun].
      * by apply (Hdisjoint d1 d2 p p2 c).
      * by apply (Hun d2).
    + intros Hp1 [= <-] Hc. destruct (JSSet.has (cards p') c) eqn:Hc'; [|done].
      destruct (Hcards c Hc') as [(p & Hp & Hpc)|Hun].
      * rewrite (Hdisjoint d2 d1 p p1 c) in Hc; done.
      * by rewrite (Hun d1 p1 Hp1) in Hc.
    + by apply Hdisjoint.
Qed.

Lemma world_inv_with_props (this : DeckId) (p p' : Props) :
  props w !! this = Some p → deck_inv p' → cards p' = cards p →
  world_inv (with_props this p' w).
Proof using Hinv.
  intros Hp Hp' Hcards. apply world_inv_insert; [done|].
  intros c Hc. left. exists p. by rewrite <- Hcards.
Qed.

Lemma world_inv_deck (this : DeckId) (p : Props) : props w !! this = Some p → deck_inv p.
Proof using Hinv. apply Hinv. Qed.

Lemma world_inv_new (cs : list Card) :
  NoDup cs → (∀ c, c ∈ cs → unowned w c) → world_inv (world_of (new_Deck cs w)).
Proof using Hinv.
  intros Hcs Hun. destruct (new_Deck_spec cs w) as (w' & -> & _ & Hw'). cbn [world_of].
  apply (world_inv_props (mkWorld (props w') ∅)); [done|]. rewrite Hw'.
  apply world_inv_insert; [by apply deck_inv_new|].
  cbn [cards]. intros c Hc%JSSet_has_values. right. apply Hun.
  by rewrite JSSet_values_of_list in Hc.
Qed.

End world_invariant.

Section calls_keep_invariant.
Context (w : World) (Hinv : world_inv w) (this : DeckId).

Lemma world_inv_remove (card : Card) : world_inv (world_of (Deck.remove this card w)).
Proof using Hinv.
  destruct (props w !! this) as [p|] eqn:Hp.
  - rewrite (remove_spec w this p card Hp). cbn [world_of].
    pose proof (world_inv_deck w Hinv this p Hp) as Hdeck.
    apply world_inv_insert; [done|by apply deck_inv_after_remove|].
    intros c [Hc _]%has_after_remove; [|apply Hdeck]. left. by exists p.
  - unfold Deck.remove. by rewrite props_get_None.
Qed.

Lemma remove_unowned (p : Props) (card : Card) :
  props w !! this = Some p →
  JSSet.has (cards p) card = true →
  unowned (world_of (Deck.remove this card w)) card.
Proof using Hinv.
  intros Hp Hcard. rewrite (remove_spec w this p card Hp). cbn [world_of].
  intros d q. cbn [props]. rewrite lookup_insert. case_decide.
  - intros [= <-]. cbn [after_remove cards]. apply JSSet_has_delete.
    apply (world_inv_deck w Hinv this p Hp).
  - intros Hq. by apply (proj2 Hinv this d p q card).
Qed.

Lemma world_inv_add (card : Card) (pile : string) :
  unowned w card → world_inv (world_of (Deck.add this card pile w)).
Proof using Hinv.
  intros Hun. destruct (piles_has pile) eqn:Hpile; [|by rewrite add_invalid_pile].
  destruct (props w !! this) as [p|] eqn:Hp.
  - rewrite (add_spec w this p card pile Hpile Hp). cbn [world_of].
    apply world_inv_insert; [done| |].
    + apply deck_inv_after_add; [done|by apply (Hun this)|by apply (world_inv_deck w Hinv this)].
    + intros c [->|Hc]%has_after_add; [by right|]. left. by exists p.
  - rewrite (add_no_deck w this card pile Hpile Hp). cbn [world_of].
    by apply (world_inv_props w).
Qed.

Lemma world_inv_run_draw (m : DrawMethod) (count : Z) :
  world_inv (world_of (run_draw m this count w)).
Proof using Hinv.
  destruct (props w !! this) as [p|] eqn:Hp.
  - destruct (decide (deck p = [])) as [Hd|Hd]; [by rewrite (run_draw_empty w this p)|].
    destruct (Z.ltb_spec count 0); [by rewrite (run_draw_negative w this p)|].
    rewrite (run_draw_nonneg w this p Hp m count) by done. cbn [world_of].
    apply (world_inv_with_props w Hinv this p); [done| |by destruct m].
    apply deck_inv_after_draw, (world_inv_deck w Hinv this p Hp).
  - destruct m; cbn [run_draw];
      unfold Deck.draw, Deck.drawFromBottom, Deck.drawToDiscard, Deck.drawToDiscardFromBottom;
      by rewrite props_get_None.
Qed.

Lemma world_inv_discard_card (card : Card) :
  world_inv (world_of (Deck.discard_card this card w)).
Proof using Hinv.
  destruct (props w !! this) as [p|] eqn:Hp.
  - pose proof (world_inv_deck w Hinv this p Hp) as Hdeck.
    rewrite (discard_card_spec w this p card Hp).
    destruct (negb _); [done|].
    case_bool_decide; [|case_bool_decide; [|done]]; cbn [world_of];
      apply (world_inv_with_props w Hinv this p); try done.
    + by apply deck_inv_discard_from_deck.
    + by apply deck_inv_discard_from_held.
  - unfold Deck.discard_card. by rewrite props_get_None.
Qed.

Lemma world_inv_shuffles (shuffle : Shuffle) :
  is_shuffle shuffle →
  world_inv (world_of (Deck.shuffleAll shuffle this w))
  ∧ world_inv (world_of (Deck.shuffleRemaining shuffle this w))
  ∧ world_inv (world_of (Deck.shuffleDiscard shuffle this w))
  ∧ world_inv (world_of (Deck.shuffleDeckAndDiscard shuffle this w)).
Proof using Hinv.
  intros Hsh.
  unfold Deck.shuffleAll, Deck.shuffleRemaining, Deck.shuffleDiscard, Deck.shuffleDeckAndDiscard.
  destruct (props w !! this) as [p|] eqn:Hp.
  - pose proof (world_inv_deck w Hinv this p Hp) as Hdeck.
    rewrite !(bind_props_get w this p Hp).
    split_and!; apply (world_inv_with_props w Hinv this p); try done;
      (apply (deck_inv_same_cards p); [done| |exact Hdeck]);
      cbn [deck held discard]; unfold push; rewrite <- ?(Hsh _); solve_Permutation.
  - by rewrite !props_get_None.
Qed.

Lemma world_inv_discardAllHeld : world_inv (world_of (Deck.discardAllHeld this w)).
Proof using Hinv.
  unfold Deck.discardAllHeld. destruct (props w !! this) as [p|] eqn:Hp.
  - pose proof (world_inv_deck w Hinv this p Hp) as Hdeck.
    rewrite (bind_props_get w this p Hp).
    apply (world_inv_with_props w Hinv this p); try done.
    apply (deck_inv_same_cards p); [done| |exact Hdeck].
    cbn [deck held discard]. unfold push. solve_Permutation.
  - by rewrite props_get_None.
Qed.

End calls_keep_invariant.

Lemma world_inv_discard (this : DeckId) (v : Value) :
  ∀ w, world_inv w → world_inv (world_of (Deck.discard this v w)).
Proof.
  induction v as [card| |vs IH] using Value_nested_ind; intros w Hinv.
  - by apply world_inv_discard_card.
  - done.
  - revert w Hinv. induction IH as [|v vs Hv _ IHvs]; intros w Hinv; [done|].
    rewrite discard_array_cons. specialize (Hv w Hinv).
    destruct (Deck.discard this v w) as [[] w'|e w']; [|done].
    by apply IHvs.
Qed.

(** The loop of [merge] keeps the invariant at every turn, for any two
    decks and whether or not it ends normally. *)
Lemma world_inv_merge_forEach (this other : DeckId) (pile : string) :
  ∀ (fuel index : nat) (w : World) (r : Completion unit),
    world_inv w →
    Deck.merge_forEach fuel this other pile index w = Some r →
    world_inv (world_of r).
Proof.
  induction fuel as [|fuel IH]; intros index w r Hinv; [done|].
  cbn [Deck.merge_forEach].
  destruct (props w !! other) as [po|] eqn:Hpo; [|by intros [= <-]].
  destruct (cards po !! index) as [[card|]|] eqn:Hentry; [| |by intros [= <-]].
  - assert (JSSet.has (cards po) card = true) as Hcard.
    { unfold JSSet.has. apply bool_decide_eq_true. by eapply list_elem_of_lookup_2. }
    pose proof (world_inv_remove w Hinv other card) as Hinv1.
    pose proof (remove_unowned w Hinv other po card Hpo Hcard) as Hun.
    unfold bind at 1. rewrite (remove_spec w other po card Hpo) in *.
    cbn [world_of] in Hinv1, Hun.
    pose proof (world_inv_add _ Hinv1 this card pile Hun) as Hinv2.
    destruct (Deck.add this card pile _) as [[] w'|e w']; cbn [world_of] in Hinv2.
    + by apply IH.
    + by intros [= <-].
  - by apply IH.
Qed.

(** The calls that read the store leave it as it is. *)
Lemma readers_keep_store (w : World) (this : DeckId) (v : Value) (filter : Card → bool) :
  world_of (Deck.locateCard this v w) = w
  ∧ world_of (Deck.findCards this filter w) = w
  ∧ world_of (Deck.totalLength this w) = w
  ∧ world_of (Deck.remainingLength this w) = w
  ∧ world_of (Deck.held this w) = w
  ∧ world_of (Deck.discarded this w) = w.
Proof.
  unfold Deck.locateCard, Deck.findCards, Deck.totalLength, Deck.remainingLength,
    Deck.held, Deck.discarded.
  destruct (props w !! this) as [p|] eqn:Hp.
  - rewrite !(bind_props_get w this p Hp). split_and!; try done.
    destruct v; try done. rewrite (bind_props_get w this p Hp).
    destruct (negb _); [done|]. repeat (destruct (_ >=? _)%Z; [done|]). done.
  - rewrite !props_get_None by done. split_and!; try done.
    destruct v; try done. by rewrite props_get_None.
Qed.

Lemma world_inv_empty : world_inv empty_world.
Proof.
  split; cbn [props empty_world].
  - intros d p. by rewrite lookup_empty.
  - intros d1 d2 p1 p2 c _. by rewrite lookup_empty.
Qed.

Lemma unowned_empty (c : Card) : unowned empty_world c.
Proof. intros d p. cbn [props empty_world]. by rewrite lookup_empty. Qed.

Lemma world_inv_run (c : Call) (w w' : World) :
  world_inv w → fresh_cards_only c w → run c w w' → world_inv w'.
Proof.
  intros Hinv Hok Hrun.
  destruct c as [cs|this card pile|this card|this other pile|m this count|this v|this v
                |sh this|sh this|sh this|sh this|this|this f|this|this|this|this];
    cbn [run fresh_cards_only] in *.
  - subst. destruct Hok. by apply world_inv_new.
  - subst. by apply world_inv_add.
  - subst. by apply world_inv_remove.
  - destruct Hrun as (fuel & r & Hr & ->).
    by apply (world_inv_merge_forEach this other pile fuel 0 w r).
  - subst. by apply world_inv_run_draw.
  - subst. by apply world_inv_discard.
  - subst. by rewrite (proj1 (readers_keep_store w this v (fun _ => true))).
  - destruct Hrun as [Hsh ->]. by apply world_inv_shuffles.
  - destruct Hrun as [Hsh ->]. by apply world_inv_shuffles.
  - destruct Hrun as [Hsh ->]. by apply world_inv_shuffles.
  - destruct Hrun as [Hsh ->]. by apply world_inv_shuffles.
  - subst. by apply world_inv_discardAllHeld.
  - subst. by rewrite (proj1 (proj2 (readers_keep_store w this VOther f))).
  - subst. by rewrite (proj1 (proj2 (proj2 (readers_keep_store w this VOther (fun _ => true))))).
  - subst.
    by rewrite (proj1 (proj2 (proj2 (proj2 (readers_keep_store w this VOther (fun _ => true)))))).
  - subst. destruct (readers_keep_store w this VOther (fun _ => true)) as (_&_&_&_&->&_). done.
  - subst. destruct (readers_keep_store w this VOther (fun _ => true)) as (_&_&_&_&_&->). done.
Qed.

Lemma reachable_world_inv (w : World) : reachable fresh_cards_only w → world_inv w.
Proof.
  induction 1 as [|c w w' _ IH Hok Hrun]; [apply world_inv_empty|].
  by apply (world_inv_run c w w').
Qed.

(** ** Whatever is called, the sets stay sets *)

Lemma sets_wf_props (w w' : World) : props w' = props w → sets_wf w → sets_wf w'.
Proof. intros Hprops. unfold sets_wf. by rewrite Hprops. Qed.

Lemma sets_wf_insert (w : World) (this : DeckId) (p' : Props) (cd : gmap Card DeckId) :
  sets_wf w → JSSet.wf (cards p') → sets_wf (mkWorld (<[this := p']> (props w)) cd).
Proof.
  intros Hw Hp' d p. cbn [props]. rewrite lookup_insert.
  case_decide; [by intros [= <-]|apply Hw].
Qed.

Section calls_keep_sets.
Context (w : World) (Hwf : sets_wf w) (this : DeckId).

Lemma sets_wf_with_props (p p' : Props) :
  props w !! this = Some p → cards p' = cards p → sets_wf (with_props this p' w).
Proof using Hwf.
  intros Hp Hcards. apply sets_wf_insert; [done|]. rewrite Hcards. by apply (Hwf this).
Qed.

Lemma sets_wf_new (cs : list Card) : sets_wf (world_of (new_Deck cs w)).
Proof using Hwf.
  destruct (new_Deck_spec cs w) as (w' & -> & _ & Hw'). cbn [world_of].
  apply (sets_wf_props (mkWorld (props w') ∅)); [done|]. rewrite Hw'.
  apply sets_wf_insert; [done|apply JSSet_wf_of_list].
Qed.

Lemma sets_wf_add (card : Card) (pile : string) :
  sets_wf (world_of (Deck.add this card pile w)).
Proof using Hwf.
  destruct (piles_has pile) eqn:Hpile; [|by rewrite add_invalid_pile].
  destruct (props w !! this) as [p|] eqn:Hp.
  - rewrite (add_spec w this p card pile Hpile Hp). cbn [world_of].
    apply sets_wf_insert; [done|]. unfold after_add. rewrite cards_pile_push.
    apply JSSet_wf_add. by apply (Hwf this).
  - rewrite (add_no_deck w this card pile Hpile Hp). cbn [world_of].
    by apply (sets_wf_props w).
Qed.

Lemma sets_wf_remove (card : Card) : sets_wf (world_of (Deck.remove this card w)).
Proof using Hwf.
  destruct (props w !! this) as [p|] eqn:Hp.
  - rewrite (remove_spec w this p card Hp). cbn [world_of].
    apply sets_wf_insert; [done|]. apply JSSet_wf_delete. by apply (Hwf this).
  - unfold Deck.remove. by rewrite props_get_None.
Qed.

Lemma sets_wf_run_draw (m : DrawMethod) (count : Z) :
  sets_wf (world_of (run_draw m this count w)).
Proof using Hwf.
  destruct (props w !! this) as [p|] eqn:Hp.
  - destruct (decide (deck p = [])) as [Hd|Hd]; [by rewrite (run_draw_empty w this p)|].
    destruct (Z.ltb_spec count 0); [by rewrite (run_draw_negative w this p)|].
    rewrite (run_draw_nonneg w this p Hp m count) by done. cbn [world_of].
    apply (sets_wf_with_props p); [done|by destruct m].
  - destruct m; cbn [run_draw];
      unfold Deck.draw, Deck.drawFromBottom, Deck.drawToDiscard, Deck.drawToDiscardFromBottom;
      by rewrite props_get_None.
Qed.

Lemma sets_wf_discard_card (card : Card) :
  sets_wf (world_of (Deck.discard_card this card w)).
Proof using Hwf.
  destruct (props w !! this) as [p|] eqn:Hp.
  - rewrite (discard_card_spec w this p card Hp).
    destruct (negb _); [done|].
    case_bool_decide; [|case_bool_decide; [|done]]; cbn [world_of];
      by apply (sets_wf_with_props p).
  - unfold Deck.discard_card. by rewrite props_get_None.
Qed.

Lemma sets_wf_rearrange (shuffle : Shuffle) :
  sets_wf (world_of (Deck.shuffleAll shuffle this w))
  ∧ sets_wf (world_of (Deck.shuffleRemaining shuffle this w))
  ∧ sets_wf (world_of (Deck.shuffleDiscard shuffle this w))
  ∧ sets_wf (world_of (Deck.shuffleDeckAndDiscard shuffle this w))
  ∧ sets_wf (world_of (Deck.discardAllHeld this w)).
Proof using Hwf.
  unfold Deck.shuffleAll, Deck.shuffleRemaining, Deck.shuffleDiscard,
    Deck.shuffleDeckAndDiscard, Deck.discardAllHeld.
  destruct (props w !! this) as [p|] eqn:Hp.
  - rewrite !(bind_props_get w this p Hp). split_and!; by apply (sets_wf_with_props p).
  - by rewrite !props_get_None.
Qed.

End calls_keep_sets.

Lemma sets_wf_discard (this : DeckId) (v : Value) :
  ∀ w, sets_wf w → sets_wf (world_of (Deck.discard this v w)).
Proof.
  induction v as [card| |vs IH] using Value_nested_ind; intros w Hwf.
  - by apply sets_wf_discard_card.
  - done.
  - revert w Hwf. induction IH as [|v vs Hv _ IHvs]; intros w Hwf; [done|].
    rewrite discard_array_cons. specialize (Hv w Hwf).
    destruct (Deck.discard this v w) as [[] w'|e w']; [|done].
    by apply IHvs.
Qed.

Lemma sets_wf_merge_forEach (this other : DeckId) (pile : string) :
  ∀ (fuel index : nat) (w : World) (r : Completion unit),
    sets_wf w →
    Deck.merge_forEach fuel this other pile index w = Some r →
    sets_wf (world_of r).
Proof.
  induction fuel as [|fuel IH]; intros index w r Hwf; [done|].
  cbn [Deck.merge_forEach].
  destruct (props w !! other) as [po|] eqn:Hpo; [|by intros [= <-]].
  destruct (cards po !! index) as [[card|]|] eqn:Hentry; [| |by intros [= <-]].
  - pose proof (sets_wf_remove w Hwf other card) as Hwf1.
    unfold bind at 1. destruct (Deck.remove other card w) as [[] w1|e w1];
      cbn [world_of] in Hwf1; [|by intros [= <-]].
    pose proof (sets_wf_add w1 Hwf1 this card pile) as Hwf2.
    destruct (Deck.add this card pile w1) as [[] w'|e w']; cbn [world_of] in Hwf2.
    + by apply IH.
    + by intros [= <-].
  - by apply IH.
Qed.

Lemma sets_wf_run (c : Call) (w w' : World) : sets_wf w → run c w w' → sets_wf w'.
Proof.
  intros Hwf Hrun.
  destruct c as [cs|this card pile|this card|this other pile|m this count|this v|this v
                |sh this|sh this|sh this|sh this|this|this f|this|this|this|this];
    cbn [run] in *.
  - subst. by apply sets_wf_new.
  - subst. by apply sets_wf_add.
  - subst. by apply sets_wf_remove.
  - destruct Hrun as (fuel & r & Hr & ->).
    by apply (sets_wf_merge_forEach this other pile fuel 0 w r).
  - subst. by apply sets_wf_run_draw.
  - subst. by apply sets_wf_discard.
  - subst. by rewrite (proj1 (readers_keep_store w this v (fun _ => true))).
  - destruct Hrun as [Hsh ->]. by apply sets_wf_rearrange.
  - destruct Hrun as [Hsh ->]. by apply sets_wf_rearrange.
  - destruct Hrun as [Hsh ->]. by apply sets_wf_rearrange.
  - destruct Hrun as [Hsh ->]. by apply sets_wf_rearrange.
  - subst. by apply (sets_wf_rearrange w Hwf this id).
  - subst. by rewrite (proj1 (proj2 (readers_keep_store w this VOther f))).
  - subst. by rewrite (proj1 (proj2 (proj2 (readers_keep_store w this VOther (fun _ => true))))).
  - subst.
    by rewrite (proj1 (proj2 (proj2 (proj2 (readers_keep_store w this VOther (fun _ => true)))))).
  - subst. destruct (readers_keep_store w this VOther (fun _ => true)) as (_&_&_&_&->&_). done.
  - subst. destruct (readers_keep_store w this VOther (fun _ => true)) as (_&_&_&_&_&->). done.
Qed.

Lemma reachable_sets_wf (allowed : Call → World → Prop) (w : World) :
  reachable allowed w → sets_wf w.
Proof.
  induction 1 as [|c w w' _ IH _ Hrun].
  - intros d p. cbn [props empty_world]. by rewrite lookup_empty.
  - by apply (sets_wf_run c w w').
Qed.


(** ** The statements of the specification, claim by claim *)

(** C1 (the code departs from it). After [new Deck([A])] and [draw(1)] the
    held pile is [[A]] and the discard pile is empty, yet the [held] getter
    returns the empty sequence: it copies the discard pile, as [discarded]
    does, not the held pile. *)
Theorem held_getter_copies_discard_pile :
  props one_card_drawn !! 0%nat = Some (mkProps [Some 7%nat] [] [7%nat] [])
  ∧ Deck.held 0%nat one_card_drawn = Normal [] one_card_drawn
  ∧ Deck.discarded 0%nat one_card_drawn = Normal [] one_card_drawn.
Proof. split_and!; vm_compute; reflexivity. Qed.

(** C2, as the code has it. In every store reached from the empty one by
    calls of the public operations in which [new Deck] is given distinct
    cards that belong to no deck and [add] is given a card that belongs to
    no deck, every deck has each card of its set in exactly one pile, once,
    and its three piles together are as long as its set is large. *)
Theorem piles_partition_reachable (w : World) (d : DeckId) (p : Props) :
  reachable fresh_cards_only w →
  props w !! d = Some p →
  piles_partition p.
Proof.
  intros Hreach Hp. apply deck_inv_partition.
  by apply (world_inv_deck w (reachable_world_inv w Hreach) d).
Qed.

Lemma piles_partition_reachable_witness :
  reachable fresh_cards_only one_card_drawn
  ∧ props one_card_drawn !! 0 = Some (mkProps [Some 7] [] [7] [])
  ∧ piles_partition (mkProps [Some 7] [] [7] []).
Proof.
  assert (reachable fresh_cards_only one_card_drawn) as Hreach.
  { apply (reachable_step _ (CDraw Draw 0 1%Z) one_card); [|done|vm_compute; reflexivity].
    apply (reachable_step _ (CNew [7]) empty_world); [constructor| |vm_compute; reflexivity].
    split; [apply NoDup_singleton|]. intros card _. apply unowned_empty. }
  assert (props one_card_drawn !! 0 = Some (mkProps [Some 7] [] [7] [])) as Hp
    by (vm_compute; reflexivity).
  split_and!; [exact Hreach|exact Hp|].
  exact (piles_partition_reachable one_card_drawn 0 _ Hreach Hp).
Defined.

(** C2 as stated fails on [twice_added], reached by [new Deck([A])] and
    [add(A, 'discard')]: the card is in the draw pile and in the discard
    pile, and the piles hold two cards for a set of one. *)
Lemma add_of_member_breaks_partition :
  reachable any_call twice_added
  ∧ props twice_added !! 0 = Some (mkProps [Some 7] [7] [] [7])
  ∧ ¬ piles_partition (mkProps [Some 7] [7] [] [7]).
Proof.
  split_and!.
  - apply (reachable_step _ (CAdd 0 7 "discard") one_card); [|done|vm_compute; reflexivity].
    apply (reachable_step _ (CNew [7]) empty_world); [constructor|done|vm_compute; reflexivity].
  - vm_compute; reflexivity.
  - intros [_ Hlen]. vm_compute in Hlen. discriminate.
Qed.

(** C3, as the code has it. For two different decks and a pile name of
    [piles], [merge] ends normally, in the store an iteration over a snapshot
    of [otherDeck]'s set would leave: [otherDeck]'s set is empty, the set of
    [this] holds what it held and every card of the snapshot, the named
    pile of [this] is the old pile followed by the snapshot in its order,
    the other piles of [this] are as before, and every moved card points
    back to [this]. *)
Theorem merge_moves_every_card (w : World) (this other : DeckId) (pile : string)
    (pt po : Props) :
  this ≠ other →
  piles_has pile = true →
  props w !! this = Some pt →
  props w !! other = Some po →
  ∃ w' pt' po',
    (∀ fuel, length (cards po) < fuel →
             Deck.merge fuel this other pile w = Some (Normal tt w'))
    ∧ merge_snapshot this other pile w = Normal tt w'
    ∧ props w' !! other = Some po'
    ∧ JSSet.values (cards po') = []
    ∧ props w' !! this = Some pt'
    ∧ (∀ c, JSSet.has (cards pt') c = true
            ↔ JSSet.has (cards pt) c = true ∨ c ∈ JSSet.values (cards po))
    ∧ pile_get pile pt' = pile_get pile pt ++ JSSet.values (cards po)
    ∧ (∀ pile', piles_has pile' = true → pile' ≠ pile →
                pile_get pile' pt' = pile_get pile' pt)
    ∧ (∀ c, c ∈ JSSet.values (cards po) → card_deck w' !! c = Some this).
Proof.
  intros Hne Hpile Hpt Hpo.
  destruct (forEach_snapshot_spec this other pile Hne Hpile (JSSet.values (cards po)) w pt po
              Hpt Hpo) as (w' & Hrun & Hthis & Hother & _ & Hown & _).
  exists w', (fold_left (after_add pile) (JSSet.values (cards po)) pt),
    (fold_left after_remove (JSSet.values (cards po)) po).
  split_and!; try done.
  - intros fuel Hfuel. unfold Deck.merge.
    rewrite (merge_forEach_snapshot this other pile Hne (cards po) 0 w po fuel Hpo eq_refl Hfuel).
    by rewrite Hrun.
  - unfold merge_snapshot. by rewrite (bind_props_get w other po Hpo).
  - by rewrite cards_fold_after_remove, values_fold_delete, fold_remove_self.
  - intros c. by rewrite cards_fold_after_add, has_fold_add.
  - by apply pile_get_fold_after_add.
  - intros pile' ? ?. by apply pile_get_fold_after_add_ne.
Qed.

Lemma merge_moves_every_card_witness :
  0 ≠ 1
  ∧ piles_has "held" = true
  ∧ props two_decks !! 0 = Some (mkProps [Some 1; Some 2; Some 3] [1; 2; 3] [] [])
  ∧ props two_decks !! 1 = Some (mkProps [Some 4; Some 5] [4; 5] [] [])
  ∧ ∃ w' pt' po',
      Deck.merge 3 0 1 "held" two_decks = Some (Normal tt w')
      ∧ props w' !! 1 = Some po' ∧ JSSet.values (cards po') = []
      ∧ props w' !! 0 = Some pt' ∧ held pt' = [4; 5] ∧ deck pt' = [1; 2; 3].
Proof.
  assert (props two_decks !! 0 = Some (mkProps [Some 1; Some 2; Some 3] [1; 2; 3] [] [])) as Hpt
    by (vm_compute; reflexivity).
  assert (props two_decks !! 1 = Some (mkProps [Some 4; Some 5] [4; 5] [] [])) as Hpo
    by (vm_compute; reflexivity).
  assert (0 ≠ 1) as Hne by discriminate.
  destruct (merge_moves_every_card two_decks 0 1 "held" _ _ Hne eq_refl Hpt Hpo)
    as (w' & pt' & po' & Hm & _ & Hpo' & Hempty & Hpt' & _ & Hpile & Hframe & _).
  split_and!; [exact Hne|reflexivity|exact Hpt|exact Hpo|].
  exists w', pt', po'. split_and!; [apply Hm; cbn; lia|exact Hpo'|exact Hempty|exact Hpt'| |].
  - exact Hpile.
  - exact (Hframe "deck"%string eq_refl ltac:(discriminate)).
Defined.

(** C3 as stated fails on a deck merged into itself: over a snapshot the
    one card is removed and added back and the call ends, while the loop of
    the code never does. *)
Lemma merge_into_itself_never_ends :
  props one_card !! 0 = Some (mkProps [Some 7] [7] [] [])
  ∧ (∃ w', merge_snapshot 0 0 "deck" one_card = Normal tt w'
           ∧ props w' !! 0 = Some (mkProps [None; Some 7] [7] [] []))
  ∧ ∀ fuel, Deck.merge fuel 0 0 "deck" one_card = None.
Proof.
  assert (props one_card !! 0 = Some (mkProps [Some 7] [7] [] [])) as Hp
    by (vm_compute; reflexivity).
  split_and!; [exact Hp| |].
  - eexists. split; vm_compute; reflexivity.
  - intros fuel. by apply (merge_forEach_self 0 "deck" 7 eq_refl fuel 0 one_card _ Hp).
Qed.

(** C4. Each of [draw], [drawFromBottom], [drawToDiscard] and
    [drawToDiscardFromBottom] throws the empty-deck error exactly when the
    draw pile is empty, whatever the count, and leaves the store as it was;
    on a non-empty draw pile a negative count returns the empty sequence and
    changes nothing. *)
Theorem draw_family_empty_and_negative (m : DrawMethod) (w : World) (this : DeckId)
    (p : Props) (count : Z) :
  props w !! this = Some p →
  ((∃ w', run_draw m this count w = Throw EmptyDeckError w') ↔ deck p = [])
  ∧ (deck p = [] → run_draw m this count w = Throw EmptyDeckError w)
  ∧ (deck p ≠ [] → (count < 0)%Z → run_draw m this count w = Normal [] w).
Proof.
  intros Hp. split_and!.
  - split.
    + intros [w' Hr]. destruct (decide (deck p = [])) as [|Hd]; [done|exfalso].
      destruct (Z.ltb_spec count 0).
      * by rewrite (run_draw_negative w this p Hp m count) in Hr.
      * by rewrite (run_draw_nonneg w this p Hp m count) in Hr.
    + intros Hd. exists w. by apply run_draw_empty with p.
  - intros Hd. by apply run_draw_empty with p.
  - intros Hd Hc. by apply run_draw_negative with p.
Qed.

Lemma draw_family_empty_and_negative_witness :
  props two_decks !! 1%nat = Some (mkProps [Some 4; Some 5] [4; 5] [] [])%nat
  ∧ ((∃ w', Deck.drawFromBottom 1%nat (-3) two_decks = Throw EmptyDeckError w')
     ↔ [4; 5]%nat = [])
  ∧ Deck.drawFromBottom 1%nat (-3) two_decks = Normal [] two_decks.
Proof.
  assert (props two_decks !! 1%nat = Some (mkProps [Some 4; Some 5] [4; 5] [] [])%nat) as Hp
    by (vm_compute; reflexivity).
  pose proof (draw_family_empty_and_negative DrawFromBottom two_decks 1%nat _ (-3) Hp)
    as (H1 & _ & H3).
  split_and!; [exact Hp|exact H1|apply H3; [discriminate|lia]].
Defined.

(** C5, as the code has it. [discard] throws the not-a-card error on a
    value that is neither a card nor an array and the not-a-member error on
    a card outside the set. A member card found in the draw pile leaves it
    (first occurrence) and is appended to the discard pile; one not in the
    draw pile but in the held pile leaves the held pile likewise; one in
    neither is left where it is and nothing changes. An array is discarded
    element by element, in order, up to the first element that throws. *)
Theorem discard_semantics (w : World) (this : DeckId) (p : Props) :
  props w !! this = Some p →
  Deck.discard this VOther w = Throw TypeNotCardError w
  ∧ (∀ c, JSSet.has (cards p) c = false →
          Deck.discard this (VCard c) w = Throw NotMemberError w)
  ∧ (∀ c, JSSet.has (cards p) c = true → c ∈ deck p →
          Deck.discard this (VCard c) w
          = Normal tt (with_props this
                         (mkProps (cards p) (remove (deck p) c) (held p) (discard p ++ [c])) w))
  ∧ (∀ c, JSSet.has (cards p) c = true → c ∉ deck p → c ∈ held p →
          Deck.discard this (VCard c) w
          = Normal tt (with_props this
                         (mkProps (cards p) (deck p) (remove (held p) c) (discard p ++ [c])) w))
  ∧ (∀ c, JSSet.has (cards p) c = true → c ∉ deck p → c ∉ held p →
          Deck.discard this (VCard c) w = Normal tt w)
  ∧ Deck.discard this (VArray []) w = Normal tt w
  ∧ (∀ v vs, Deck.discard this (VArray (v :: vs)) w
             = match Deck.discard this v w with
               | Normal _ w' => Deck.discard this (VArray vs) w'
               | Throw e w' => Throw e w'
               end).
Proof.
  intros Hp. split_and!; try done.
  - intros c Hc. cbn [Deck.discard]. rewrite (discard_card_spec w this p c Hp). by rewrite Hc.
  - intros c Hc Hd. cbn [Deck.discard]. rewrite (discard_card_spec w this p c Hp), Hc.
    cbn [negb]. by rewrite bool_decide_eq_true_2.
  - intros c Hc Hd Hh. cbn [Deck.discard]. rewrite (discard_card_spec w this p c Hp), Hc.
    cbn [negb]. by rewrite bool_decide_eq_false_2, bool_decide_eq_true_2.
  - intros c Hc Hd Hh. cbn [Deck.discard]. rewrite (discard_card_spec w this p c Hp), Hc.
    cbn [negb]. by rewrite !bool_decide_eq_false_2.
Qed.

Lemma discard_semantics_witness :
  props one_card_drawn !! 0 = Some (mkProps [Some 7] [] [7] [])
  ∧ Deck.discard 0 VOther one_card_drawn = Throw TypeNotCardError one_card_drawn
  ∧ Deck.discard 0 (VCard 8) one_card_drawn = Throw NotMemberError one_card_drawn
  ∧ Deck.discard 0 (VCard 7) one_card_drawn
    = Normal tt (with_props 0 (mkProps [Some 7] [] [] [7]) one_card_drawn).
Proof.
  assert (props one_card_drawn !! 0 = Some (mkProps [Some 7] [] [7] [])) as Hp
    by (vm_compute; reflexivity).
  destruct (discard_semantics one_card_drawn 0 _ Hp) as (H1 & H2 & _ & H4 & _).
  split_and!; [exact Hp|exact H1|by apply H2|].
  apply H4; [done|apply not_elem_of_nil|apply list_elem_of_here].
Defined.

(** C5 as stated fails on [twice_added]: the card is a member and already
    in the discard pile, and [discard] still moves its copy out of the draw
    pile and appends it to the discard pile again. *)
Lemma discard_of_discarded_card_mutates :
  props twice_added !! 0 = Some (mkProps [Some 7] [7] [] [7])
  ∧ ∃ w', Deck.discard 0 (VCard 7) twice_added = Normal tt w'
          ∧ props w' !! 0 = Some (mkProps [Some 7] [] [] [7; 7]).
Proof.
  split; [vm_compute; reflexivity|].
  eexists. split; vm_compute; reflexivity.
Qed.

(** C6. [drawFromBottom(count)] takes the last [min(count, length)] cards of
    the draw pile, and appends them to the held pile and returns them in
    reverse order. On a deck built from [[A, B, C]], [draw(2)] returns
    [[A, B]] and leaves held = [[A, B]], draw = [[C]]; [drawFromBottom(1)]
    then returns [[C]] and leaves the draw pile empty and held = [[A, B, C]]. *)
Theorem drawFromBottom_reverses_back_span :
  (∀ (w : World) (this : DeckId) (p : Props) (count : Z),
     props w !! this = Some p → deck p ≠ [] →
     let k := Nat.min (Z.to_nat count) (length (deck p)) in
     let span := drop (length (deck p) - k) (deck p) in
     Deck.drawFromBottom this count w
     = Normal (reverse span)
         (with_props this
            (mkProps (cards p) (take (length (deck p) - k) (deck p))
                     (held p ++ reverse span) (discard p)) w))
  ∧ (∀ (w : World) (A B C : Card),
       ∃ this w1 w2 w3 p2 p3,
         new_Deck [A; B; C] w = Normal this w1
         ∧ Deck.draw this 2 w1 = Normal [A; B] w2
         ∧ props w2 !! this = Some p2 ∧ held p2 = [A; B] ∧ deck p2 = [C]
         ∧ Deck.drawFromBottom this 1 w2 = Normal [C] w3
         ∧ props w3 !! this = Some p3 ∧ deck p3 = [] ∧ held p3 = [A; B; C]).
Proof.
  split.
  - intros w this p count Hp Hd.
    destruct (Z.ltb_spec count 0) as [Hc|Hc];
      [|apply (run_draw_nonneg w this p Hp DrawFromBottom count Hd Hc)].
    change (Deck.drawFromBottom this count w) with (run_draw DrawFromBottom this count w).
    rewrite (run_draw_negative w this p Hp DrawFromBottom count Hd Hc).
    replace (Z.to_nat count) with 0%nat by lia. cbn [Nat.min].
    rewrite Nat.sub_0_r, drop_all, firstn_all, app_nil_r.
    f_equal. by rewrite with_props_same.
  - intros w A B C.
    destruct (new_Deck_spec [A; B; C] w) as (w1 & Hnew & _ & Hw1).
    set (this := fresh (dom (props w))) in *.
    assert (props w1 !! this = Some (mkProps (JSSet.of_list [A; B; C]) [A; B; C] [] [])) as Hp1
      by (rewrite Hw1; apply lookup_insert_eq).
    set (p2 := mkProps (JSSet.of_list [A; B; C]) [C] [A; B] []).
    set (p3 := mkProps (JSSet.of_list [A; B; C]) [] [A; B; C] []).
    assert (props (with_props this p2 w1) !! this = Some p2) as Hp2 by apply with_props_lookup.
    exists this, w1, (with_props this p2 w1), (with_props this p3 (with_props this p2 w1)), p2, p3.
    split_and!; try done.
    + change (run_draw Draw this 2 w1 = Normal [A; B] (with_props this p2 w1)).
      by rewrite (run_draw_nonneg w1 this _ Hp1 Draw 2) by (done || lia).
    + change (run_draw DrawFromBottom this 1 (with_props this p2 w1)
              = Normal [C] (with_props this p3 (with_props this p2 w1))).
      by rewrite (run_draw_nonneg _ this _ Hp2 DrawFromBottom 1) by (done || lia).
    + apply with_props_lookup.
Qed.

Lemma drawFromBottom_reverses_back_span_witness :
  props two_decks !! 0%nat = Some (mkProps [Some 1; Some 2; Some 3] [1; 2; 3] [] [])%nat
  ∧ Deck.drawFromBottom 0%nat 2 two_decks
    = Normal [3; 2]%nat
        (with_props 0%nat (mkProps [Some 1; Some 2; Some 3] [1] [3; 2] [])%nat two_decks).
Proof.
  assert (props two_decks !! 0%nat
          = Some (mkProps [Some 1; Some 2; Some 3] [1; 2; 3] [] [])%nat) as Hp
    by (vm_compute; reflexivity).
  split; [exact Hp|].
  apply (proj1 drawFromBottom_reverses_back_span two_decks 0%nat _ 2%Z Hp); discriminate.
Defined.

(** C7. [shuffleDiscard] keeps the draw pile as a prefix of the new draw
    pile, in its order; what follows it is a permutation of the old discard
    pile; the discard pile is empty afterwards and the held pile, the set of
    cards and every other deck are untouched. The external [shuffle] is any
    function that permutes its array. *)
Theorem shuffleDiscard_frame (shuffle : Shuffle) (w : World) (this : DeckId) (p : Props) :
  is_shuffle shuffle →
  props w !! this = Some p →
  ∃ p', Deck.shuffleDiscard shuffle this w = Normal tt (with_props this p' w)
        ∧ take (length (deck p)) (deck p') = deck p
        ∧ Permutation (drop (length (deck p)) (deck p')) (discard p)
        ∧ discard p' = []
        ∧ held p' = held p
        ∧ cards p' = cards p.
Proof.
  intros Hsh Hp. eexists. split.
  - unfold Deck.shuffleDiscard. rewrite (bind_props_get w this p Hp). reflexivity.
  - cbn [deck discard held cards]. unfold push.
    rewrite take_app_length, drop_app_length. split_and!; try done.
Qed.

Lemma shuffleDiscard_frame_witness :
  is_shuffle reverse
  ∧ props three_piles !! 0%nat
    = Some (mkProps [Some 9; Some 2; Some 3; Some 1] [1] [9] [2; 3])%nat
  ∧ ∃ p', Deck.shuffleDiscard reverse 0%nat three_piles
          = Normal tt (with_props 0%nat p' three_piles)
          ∧ take 1 (deck p') = [1%nat]
          ∧ Permutation (drop 1 (deck p')) [2; 3]%nat
          ∧ discard p' = []
          ∧ held p' = [9%nat]
          ∧ cards p' = [Some 9; Some 2; Some 3; Some 1]%nat.
Proof.
  assert (is_shuffle reverse) as Hsh by (intros l; symmetry; apply reverse_Permutation).
  assert (props three_piles !! 0%nat
          = Some (mkProps [Some 9; Some 2; Some 3; Some 1] [1] [9] [2; 3])%nat) as Hp
    by (vm_compute; reflexivity).
  split_and!; [exact Hsh|exact Hp|].
  exact (shuffleDiscard_frame reverse three_piles 0%nat _ Hsh Hp).
Defined.

(** C8, as the code has it. In every store reached by calls of the public
    operations: for a member card, [remove(card)] followed by
    [findCards(c => c === card)] gives the empty sequence and [totalLength]
    is one less than before. For a card that is not a member, [remove]
    throws nothing and leaves the set as it was; the piles are left as they
    were when none of them holds the card. *)
Theorem remove_then_findCards (w : World) (this : DeckId) (p : Props) (card : Card) :
  reachable any_call w →
  props w !! this = Some p →
  ∃ w' p',
    Deck.remove this card w = Normal tt w'
    ∧ props w' !! this = Some p'
    ∧ (JSSet.has (cards p) card = true →
       Deck.findCards this (fun c => bool_decide (c = card)) w' = Normal [] w'
       ∧ Deck.totalLength this w = Normal (S (JSSet.size (cards p'))) w
       ∧ Deck.totalLength this w' = Normal (JSSet.size (cards p')) w')
    ∧ (JSSet.has (cards p) card = false →
       cards p' = cards p
       ∧ (card ∉ deck p ++ held p ++ discard p → p' = p)).
Proof.
  intros Hreach Hp. pose proof (reachable_sets_wf any_call w Hreach this p Hp) as Hwf.
  eexists _, (after_remove p card).
  split; [by apply remove_spec|].
  assert (props (mkWorld (<[this:=after_remove p card]> (props w))
                         (partial_alter (λ _, None) card (card_deck w))) !! this
          = Some (after_remove p card)) as Hp' by apply lookup_insert_eq.
  split; [exact Hp'|]. split.
  - intros Hhas. split_and!.
    + unfold Deck.findCards. rewrite (bind_props_get _ this _ Hp'). unfold ret.
      cbn [after_remove cards]. rewrite JSSet_values_delete.
      by rewrite filter_is_card_remove.
    + unfold Deck.totalLength. rewrite (bind_props_get _ this _ Hp). unfold ret.
      cbn [after_remove cards]. by rewrite JSSet_size_delete.
    + unfold Deck.totalLength. by rewrite (bind_props_get _ this _ Hp').
  - intros Hhas. cbn [after_remove cards]. rewrite JSSet_delete_absent by done.
    split; [done|]. rewrite !not_elem_of_app. intros (? & ? & ?).
    unfold after_remove. rewrite JSSet_delete_absent, !remove_not_elem by done.
    by destruct p.
Qed.

Lemma remove_then_findCards_witness :
  reachable any_call two_decks
  ∧ props two_decks !! 0 = Some (mkProps [Some 1; Some 2; Some 3] [1; 2; 3] [] [])
  ∧ ∃ w' p',
      Deck.remove 0 2 two_decks = Normal tt w'
      ∧ props w' !! 0 = Some p'
      ∧ Deck.findCards 0 (fun c => bool_decide (c = 2)) w' = Normal [] w'
      ∧ Deck.totalLength 0 two_decks = Normal (S (JSSet.size (cards p'))) two_decks
      ∧ Deck.totalLength 0 w' = Normal (JSSet.size (cards p')) w'.
Proof.
  assert (reachable any_call two_decks) as Hreach.
  { apply (reachable_step _ (CNew [4; 5]) (world_of (new_Deck [1; 2; 3] empty_world)));
      [|done|vm_compute; reflexivity].
    apply (reachable_step _ (CNew [1; 2; 3]) empty_world); [constructor|done|reflexivity]. }
  assert (props two_decks !! 0 = Some (mkProps [Some 1; Some 2; Some 3] [1; 2; 3] [] [])) as Hp
    by (vm_compute; reflexivity).
  destruct (remove_then_findCards two_decks 0 _ 2 Hreach Hp) as (w' & p' & Hr & Hp' & Hin & _).
  split_and!; [exact Hreach|exact Hp|].
  exists w', p'. destruct (Hin eq_refl) as (? & ? & ?). by split_and!.
Defined.

(** C8 as stated fails on [removed_once]: the card is not in the set, and
    [remove] takes it out of the draw pile. *)
Lemma remove_absent_card_changes_pile :
  props removed_once !! 0 = Some (mkProps [None] [7] [] [])
  ∧ JSSet.has [None] 7 = false
  ∧ ∃ w', Deck.remove 0 7 removed_once = Normal tt w'
          ∧ props w' !! 0 = Some (mkProps [None] [] [] []).
Proof.
  split_and!; [vm_compute; reflexivity|vm_compute; reflexivity|].
  eexists. split; vm_compute; reflexivity.
Qed.

(** C9. [remove(card)] always ends with the card's [deck] field cleared,
    member or not, and touches no deck but [this]: a card that another
    deck holds stays in that deck's set and piles while its back-reference
    is gone. *)
Theorem remove_clears_back_reference (w : World) (this : DeckId) (p : Props) (card : Card) :
  props w !! this = Some p →
  ∃ w', Deck.remove this card w = Normal tt w'
        ∧ card_deck w' !! card = None
        ∧ (∀ other, other ≠ this → props w' !! other = props w !! other).
Proof.
  intros Hp. eexists. split; [by apply remove_spec|]. cbn [card_deck props]. split.
  - by rewrite lookup_partial_alter_eq.
  - intros other Hne. by rewrite lookup_insert_ne.
Qed.

Lemma remove_clears_back_reference_witness :
  props two_decks !! 0%nat = Some (mkProps [Some 1; Some 2; Some 3] [1; 2; 3] [] [])%nat
  ∧ card_deck two_decks !! 4%nat = Some 1%nat
  ∧ ∃ w', Deck.remove 0%nat 4%nat two_decks = Normal tt w'
          ∧ card_deck w' !! 4%nat = None
          ∧ props w' !! 1%nat = Some (mkProps [Some 4; Some 5] [4; 5] [] [])%nat.
Proof.
  assert (props two_decks !! 0%nat
          = Some (mkProps [Some 1; Some 2; Some 3] [1; 2; 3] [] [])%nat) as Hp
    by (vm_compute; reflexivity).
  destruct (remove_clears_back_reference two_decks 0%nat _ 4%nat Hp) as (w' & Hr & Hc & Hother).
  split_and!; [exact Hp|vm_compute; reflexivity|].
  exists w'. split_and!; [exact Hr|exact Hc|].
  etrans; [apply Hother; discriminate|]. vm_compute; reflexivity.
Defined.

(** C10. With a pile name outside [piles] and at least one card in
    [otherDeck], [merge] ends by throwing the invalid-pile error, and only
    after the first card of [otherDeck]'s set has been taken out of
    [otherDeck]: the set iterates over the remaining cards only, the first
    occurrence of the card is gone from each pile that held it, with the
    cards before and after it in their order, a pile without the card is as
    it was, and the card's back-reference is cleared. So [otherDeck] is not
    what it was before the failed call. Nothing else has changed: the other
    back-references and the other decks are as before, and the store is the
    one [otherDeck.remove(card)] alone would leave. *)
Theorem merge_invalid_pile_not_atomic (w : World) (this other : DeckId) (pile : string)
    (po : Props) (card : Card) (rest : list Card) :
  piles_has pile = false →
  props w !! other = Some po →
  JSSet.values (cards po) = card :: rest →
  ∃ w' po',
    (∀ fuel, length (cards po) ≤ fuel →
       Deck.merge fuel this other pile w = Some (Throw InvalidPileError w'))
    ∧ props w' !! other = Some po'
    ∧ po' ≠ po
    ∧ JSSet.values (cards po') = rest
    ∧ (card ∉ rest → JSSet.has (cards po') card = false)
    ∧ (∀ l1 l2, deck po = l1 ++ card :: l2 → card ∉ l1 → deck po' = l1 ++ l2)
    ∧ (∀ l1 l2, held po = l1 ++ card :: l2 → card ∉ l1 → held po' = l1 ++ l2)
    ∧ (∀ l1 l2, discard po = l1 ++ card :: l2 → card ∉ l1 → discard po' = l1 ++ l2)
    ∧ (card ∉ deck po → deck po' = deck po)
    ∧ (card ∉ held po → held po' = held po)
    ∧ (card ∉ discard po → discard po' = discard po)
    ∧ card_deck w' !! card = None
    ∧ (∀ c, c ≠ card → card_deck w' !! c = card_deck w !! c)
    ∧ (∀ d, d ≠ other → props w' !! d = props w !! d)
    ∧ Deck.remove other card w = Normal tt w'.
Proof.
  intros Hpile Hpo Hvalues.
  destruct (JSSet_values_cons _ _ _ Hvalues) as (n & s' & Hcards & Hs').
  assert (JSSet.values (cards (after_remove po card)) = rest) as Hrest.
  { cbn [after_remove cards]. rewrite JSSet_values_delete, Hvalues. apply remove_head. }
  assert (∀ a l1 l2, a = l1 ++ card :: l2 → card ∉ l1 → remove a card = l1 ++ l2) as Hfirst.
  { intros a l1 l2 -> Hl1. rewrite remove_app_r by done. by rewrite remove_head. }
  eexists _, (after_remove po card). split_and!.
  - intros fuel Hfuel. unfold Deck.merge.
    assert (S n ≤ fuel) as Hn.
    { rewrite Hcards, length_app, length_replicate in Hfuel. cbn [length] in Hfuel. lia. }
    replace fuel with (S (fuel - S n) + n) by lia.
    rewrite (merge_forEach_skip this other pile w po n _ Hpo Hcards n 0 _ eq_refl).
    cbn [Deck.merge_forEach].
    rewrite Hpo, Hcards, lookup_replicate_None_app_ge. cbn [lookup list_lookup].
    unfold bind at 1. rewrite (remove_spec w other po card Hpo).
    by rewrite add_invalid_pile.
  - apply lookup_insert_eq.
  - intros Heq. rewrite Heq, Hvalues in Hrest.
    apply (f_equal length) in Hrest. cbn [length] in Hrest. lia.
  - exact Hrest.
  - intros Hnot. apply JSSet_has_false. by rewrite Hrest.
  - intros l1 l2. apply Hfirst.
  - intros l1 l2. apply Hfirst.
  - intros l1 l2. apply Hfirst.
  - apply remove_not_elem.
  - apply remove_not_elem.
  - apply remove_not_elem.
  - apply lookup_partial_alter_eq.
  - intros c Hc. cbn [card_deck]. by apply lookup_partial_alter_ne.
  - intros d Hd. cbn [props]. by apply lookup_insert_ne.
  - by apply remove_spec.
Qed.

Lemma merge_invalid_pile_not_atomic_witness :
  piles_has "bogus" = false
  ∧ props reversed_deck !! 1 = Some (mkProps [Some 4; Some 5; Some 6] [5; 4] [6] [])
  ∧ ∃ w' po',
      Deck.merge 3 0 1 "bogus" reversed_deck = Some (Throw InvalidPileError w')
      ∧ props w' !! 1 = Some po'
      ∧ JSSet.values (cards po') = [5; 6]
      ∧ JSSet.has (cards po') 4 = false
      ∧ deck po' = [5]
      ∧ held po' = [6]
      ∧ discard po' = []
      ∧ card_deck w' !! 4 = None
      ∧ props w' !! 0 = Some (mkProps [Some 1; Some 2; Some 3] [1; 2; 3] [] []).
Proof.
  assert (props reversed_deck !! 1
          = Some (mkProps [Some 4; Some 5; Some 6] [5; 4] [6] [])) as Hp
    by (vm_compute; reflexivity).
  destruct (merge_invalid_pile_not_atomic reversed_deck 0 1 "bogus" _ 4 [5; 6] eq_refl Hp eq_refl)
    as (w' & po' & Hm & Hp' & _ & Hv & Hhas & Hdeck & _ & _ & _ & Hheld & Hdisc & Hc & _
        & Hother & _).
  split_and!; [reflexivity|exact Hp|].
  exists w', po'. split_and!.
  - apply Hm. cbn. lia.
  - exact Hp'.
  - exact Hv.
  - apply Hhas. rewrite !not_elem_of_cons. split_and!; [done|done|apply not_elem_of_nil].
  - apply (Hdeck [5] []); [reflexivity|].
    rewrite not_elem_of_cons. split; [done|apply not_elem_of_nil].
  - apply Hheld. cbn [held]. rewrite not_elem_of_cons. split; [done|apply not_elem_of_nil].
  - apply Hdisc. apply not_elem_of_nil.
  - exact Hc.
  - etrans; [apply Hother; discriminate|]. vm_compute; reflexivity.
Defined.

(** ** More of the class: helpers *)

Lemma with_props_with_props (this : DeckId) (p q : Props) (w : World) :
  with_props this q (with_props this p w) = with_props this q w.
Proof. unfold with_props. cbn [props card_deck]. by rewrite insert_insert_eq. Qed.

Lemma with_props_card_deck (this : DeckId) (p : Props) (w : World) :
  card_deck (with_props this p w) = card_deck w.
Proof. done. Qed.

(** A draw on a non-empty draw pile, whatever the count. *)
Lemma run_draw_any (w : World) (this : DeckId) (p : Props) (m : DrawMethod) (count : Z) :
  props w !! this = Some p → deck p ≠ [] →
  run_draw m this count w = Normal (drawn p m count) (with_props this (after_draw p m count) w).
Proof.
  intros Hp Hd. destruct (Z.ltb_spec count 0) as [Hc|Hc];
    [|by apply run_draw_nonneg].
  rewrite (run_draw_negative w this p Hp m count Hd Hc).
  assert (drawn p m count = []) as Hdrawn.
  { unfold drawn. replace (Z.to_nat count) with 0 by lia. cbn [Nat.min].
    rewrite Nat.sub_0_r, drop_all, take_0. by destruct m. }
  assert (after_draw p m count = mkProps (cards p) (deck p) (held p) (discard p)) as ->.
  { unfold after_draw. rewrite Hdrawn. replace (Z.to_nat count) with 0 by lia. cbn [Nat.min].
    rewrite Nat.sub_0_r, firstn_all, drop_0, !app_nil_r. by destruct m. }
  by rewrite Hdrawn, (with_props_same w this p Hp).
Qed.

Lemma indexOf_lookup (a : list Card) (v : Card) :
  (0 ≤ indexOf a v)%Z →
  a !! Z.to_nat (indexOf a v) = Some v
  ∧ ∀ j, j < Z.to_nat (indexOf a v) → a !! j ≠ Some v.
Proof.
  induction a as [|x r IH]; cbn [indexOf]; [lia|].
  case_decide as Hx.
  - intros _. subst. split; [done|]. intros j Hj. change (Z.to_nat 0) with 0 in Hj. lia.
  - destruct (Z.ltb_spec (indexOf r v) 0) as [Hlt|Hge]; [lia|]. intros _.
    destruct (IH Hge) as [Hat Hbefore].
    replace (Z.to_nat (indexOf r v + 1)) with (S (Z.to_nat (indexOf r v))) by lia.
    split; [done|]. intros [|j] Hj; cbn.
    + congruence.
    + apply Hbefore. lia.
Qed.

Lemma indexOf_app_fresh (a : list Card) (v : Card) :
  v ∉ a → indexOf (a ++ [v]) v = Z.of_nat (length a).
Proof.
  induction a as [|x r IH]; cbn [app indexOf length].
  - intros _. by rewrite decide_True.
  - intros [? Hr]%not_elem_of_cons. rewrite decide_False by done. rewrite (IH Hr).
    destruct (Z.ltb_spec (Z.of_nat (length r)) 0); lia.
Qed.

Lemma indexOf_app_l (a b : list Card) (v : Card) :
  v ∈ a → indexOf (a ++ b) v = indexOf a v.
Proof.
  induction a as [|x r IH]; [by intros ?%elem_of_nil|].
  cbn [app indexOf]. case_decide; [done|].
  intros [?|Hr]%elem_of_cons; [congruence|]. by rewrite (IH Hr).
Qed.

(** ** More of the class: the helper [remove] *)

(** X1. The helper [remove(array, value)] takes out the first occurrence of
    the value and nothing else: the elements before and after it keep
    their order, and an array without the value is left as it is. *)
Theorem remove_first_occurrence (l1 l2 : list Card) (v : Card) :
  v ∉ l1 →
  remove (l1 ++ v :: l2) v = l1 ++ l2
  ∧ remove l1 v = l1.
Proof.
  intros Hv. split; [|by apply remove_not_elem].
  rewrite remove_app_r by done. by rewrite remove_head.
Qed.

Lemma remove_first_occurrence_witness :
  (2 ∉ [1; 3])
  ∧ remove ([1; 3] ++ 2 :: [4; 2]) 2 = [1; 3] ++ [4; 2]
  ∧ remove [1; 3] 2 = [1; 3].
Proof.
  assert (2 ∉ [1; 3]) as Hv by (rewrite !not_elem_of_cons; split_and!; (lia || apply not_elem_of_nil)).
  split; [exact Hv|]. exact (remove_first_occurrence [1; 3] [4; 2] 2 Hv).
Defined.

(** ** More of the class: drawing *)

Lemma drawn_top (p : Props) (count : Z) :
  drawn p Draw count = take (Z.to_nat count) (deck p)
  ∧ after_draw p Draw count
    = mkProps (cards p) (drop (Z.to_nat count) (deck p))
              (held p ++ take (Z.to_nat count) (deck p)) (discard p).
Proof. unfold after_draw, drawn. by rewrite take_min_length, drop_min_length. Qed.

(** X2. On a non-empty draw pile [draw(count)] returns the first
    [min(count, remaining)] cards in their order (none for a negative
    count), leaves the rest in the draw pile and appends the returned cards
    to the held pile; [remainingLength] drops by that number,
    [totalLength], the discard pile, the back-references and the other
    decks are as before. *)
Theorem draw_takes_from_top (w : World) (this : DeckId) (p : Props) (count : Z) :
  props w !! this = Some p →
  deck p ≠ [] →
  let k := Nat.min (Z.to_nat count) (length (deck p)) in
  ∃ w', Deck.draw this count w = Normal (take k (deck p)) w'
        ∧ props w' !! this
          = Some (mkProps (cards p) (drop k (deck p)) (held p ++ take k (deck p)) (discard p))
        ∧ Deck.remainingLength this w' = Normal (length (deck p) - k) w'
        ∧ Deck.totalLength this w' = Normal (JSSet.size (cards p)) w'
        ∧ card_deck w' = card_deck w
        ∧ (∀ other, other ≠ this → props w' !! other = props w !! other).
Proof.
  intros Hp Hd k. eexists. split; [exact (run_draw_any w this p Draw count Hp Hd)|].
  set (p' := mkProps _ _ _ _).
  assert (after_draw p Draw count = p') as -> by done.
  assert (props (with_props this p' w) !! this = Some p') as Hp' by apply with_props_lookup.
  split_and!; try done.
  - unfold Deck.remainingLength. rewrite (bind_props_get _ this p' Hp'). unfold ret.
    cbn [p' deck]. by rewrite length_drop.
  - unfold Deck.totalLength. by rewrite (bind_props_get _ this p' Hp').
  - intros other Hne. by apply with_props_lookup_ne.
Qed.

Lemma draw_takes_from_top_witness :
  props two_decks !! 0 = Some (mkProps [Some 1; Some 2; Some 3] [1; 2; 3] [] [])
  ∧ ∃ w', Deck.draw 0 5 two_decks = Normal [1; 2; 3] w'
          ∧ props w' !! 0 = Some (mkProps [Some 1; Some 2; Some 3] [] [1; 2; 3] [])
          ∧ Deck.remainingLength 0 w' = Normal 0 w'.
Proof.
  assert (props two_decks !! 0 = Some (mkProps [Some 1; Some 2; Some 3] [1; 2; 3] [] [])) as Hp
    by (vm_compute; reflexivity).
  destruct (draw_takes_from_top two_decks 0 _ 5 Hp ltac:(discriminate))
    as (w' & Hr & Hp' & Hlen & _).
  split; [exact Hp|]. exists w'. split_and!; [exact Hr|exact Hp'|exact Hlen].
Defined.

(** X3. [drawToDiscard] and [drawToDiscardFromBottom] take the same cards
    as [draw] and [drawFromBottom] (from the top in order, from the bottom
    reversed), but append them to the discard pile and leave the held pile
    alone. *)
Theorem drawToDiscard_fills_discard_pile (w : World) (this : DeckId) (p : Props) (count : Z) :
  props w !! this = Some p →
  deck p ≠ [] →
  let k := Nat.min (Z.to_nat count) (length (deck p)) in
  let top := take k (deck p) in
  let bottom := reverse (drop (length (deck p) - k) (deck p)) in
  Deck.drawToDiscard this count w
  = Normal top
      (with_props this (mkProps (cards p) (drop k (deck p)) (held p) (discard p ++ top)) w)
  ∧ Deck.drawToDiscardFromBottom this count w
    = Normal bottom
        (with_props this
           (mkProps (cards p) (take (length (deck p) - k) (deck p)) (held p)
                    (discard p ++ bottom)) w).
Proof.
  intros Hp Hd k top bottom. split.
  - exact (run_draw_any w this p DrawToDiscard count Hp Hd).
  - exact (run_draw_any w this p DrawToDiscardFromBottom count Hp Hd).
Qed.

Lemma drawToDiscard_fills_discard_pile_witness :
  props two_decks !! 0 = Some (mkProps [Some 1; Some 2; Some 3] [1; 2; 3] [] [])
  ∧ Deck.drawToDiscard 0 2 two_decks
    = Normal [1; 2] (with_props 0 (mkProps [Some 1; Some 2; Some 3] [3] [] [1; 2]) two_decks)
  ∧ Deck.drawToDiscardFromBottom 0 2 two_decks
    = Normal [3; 2] (with_props 0 (mkProps [Some 1; Some 2; Some 3] [1] [] [3; 2]) two_decks).
Proof.
  assert (props two_decks !! 0 = Some (mkProps [Some 1; Some 2; Some 3] [1; 2; 3] [] [])) as Hp
    by (vm_compute; reflexivity).
  split; [exact Hp|].
  exact (drawToDiscard_fills_discard_pile two_decks 0 _ 2 Hp ltac:(discriminate)).
Defined.

(** X4. Two draws in a row are one draw of the sum: when [a] cards leave
    some in the draw pile, [draw(a)] followed by [draw(b)] returns, one
    after the other, what [draw(a + b)] returns at once, and ends in the
    same store. *)
Theorem draw_twice_is_draw_sum (w : World) (this : DeckId) (p : Props) (a b : Z) :
  props w !! this = Some p →
  (0 ≤ a)%Z → (0 ≤ b)%Z →
  Z.to_nat a < length (deck p) →
  ∃ cs1 cs2 w1 w2,
    Deck.draw this a w = Normal cs1 w1
    ∧ Deck.draw this b w1 = Normal cs2 w2
    ∧ Deck.draw this (a + b) w = Normal (cs1 ++ cs2) w2.
Proof.
  intros Hp Ha Hb Hlen.
  assert (deck p ≠ []) as Hd by (destruct (deck p); [cbn in Hlen; lia|done]).
  pose proof (run_draw_any w this p Draw a Hp Hd) as H1.
  pose proof (run_draw_any w this p Draw (a + b) Hp Hd) as H12.
  destruct (drawn_top p a) as [Hd1 Hp1]. destruct (drawn_top p (a + b)) as [Hd12 Hp12].
  rewrite Hd1, Hp1 in H1. rewrite Hd12, Hp12 in H12. clear Hd1 Hp1 Hd12 Hp12.
  set (p1 := mkProps (cards p) (drop (Z.to_nat a) (deck p))
                     (held p ++ take (Z.to_nat a) (deck p)) (discard p)) in *.
  assert (props (with_props this p1 w) !! this = Some p1) as Hp1 by apply with_props_lookup.
  assert (deck p1 ≠ []) as Hd1.
  { cbn [p1 deck]. intros Hnil%(f_equal length). rewrite length_drop in Hnil. cbn in Hnil. lia. }
  pose proof (run_draw_any _ this p1 Draw b Hp1 Hd1) as H2.
  destruct (drawn_top p1 b) as [Hd2 Hp2]. rewrite Hd2, Hp2 in H2. clear Hd2 Hp2.
  cbn [p1 cards deck held discard] in H2. rewrite with_props_with_props in H2.
  eexists _, _, _, _. split_and!; [exact H1|exact H2|].
  cbn [run_draw] in H12. rewrite H12.
  replace (Z.to_nat (a + b)) with (Z.to_nat a + Z.to_nat b) by lia.
  by rewrite drop_drop, <- app_assoc, take_take_drop.
Qed.

Lemma draw_twice_is_draw_sum_witness :
  props two_decks !! 0 = Some (mkProps [Some 1; Some 2; Some 3] [1; 2; 3] [] [])
  ∧ ∃ w1 w2,
      Deck.draw 0 1 two_decks = Normal [1] w1
      ∧ Deck.draw 0 1 w1 = Normal [2] w2
      ∧ Deck.draw 0 2 two_decks = Normal [1; 2] w2.
Proof.
  assert (props two_decks !! 0 = Some (mkProps [Some 1; Some 2; Some 3] [1; 2; 3] [] [])) as Hp
    by (vm_compute; reflexivity).
  destruct (draw_twice_is_draw_sum two_decks 0 _ 1 1 Hp ltac:(lia) ltac:(lia) ltac:(cbn; lia))
    as (cs1 & cs2 & w1 & w2 & H1 & H2 & H12).
  split; [exact Hp|]. exists w1, w2.
  assert (cs1 = [1]) as -> by (vm_compute in H1; congruence).
  assert (cs2 = [2]) as ->.
  { assert (Deck.draw 0 2 two_decks = Normal [1; 2] (world_of (Deck.draw 0 2 two_decks))) as Hc
      by (vm_compute; reflexivity).
    change (1 + 1)%Z with 2%Z in H12. rewrite H12 in Hc. by injection Hc as [= ->]. }
  split_and!; [exact H1|exact H2|exact H12].
Defined.

(** Discarding, one by one, member cards that sit at the end of the held
    pile and nowhere else. *)
Lemma discard_tail_of_held (this : DeckId) (cs : list Card) :
  ∀ (w : World) (p : Props) (h : list Card),
    props w !! this = Some p →
    held p = h ++ cs →
    NoDup (h ++ cs) →
    (∀ c, c ∈ cs → JSSet.has (cards p) c = true ∧ c ∉ deck p) →
    Deck.discard this (VArray (VCard <$> cs)) w
    = Normal tt (with_props this (mkProps (cards p) (deck p) h (discard p ++ cs)) w).
Proof.
  induction cs as [|c cs IH]; intros w p h Hp Hheld Hnd Hcs.
  - rewrite app_nil_r in *. cbn [fmap list_fmap]. rewrite discard_array_nil.
    rewrite <- Hheld. by rewrite (with_props_same w this p Hp).
  - cbn [fmap list_fmap]. rewrite discard_array_cons.
    change (Deck.discard this (VCard c) w) with (Deck.discard_card this c w).
    destruct (Hcs c) as [Hmember Hdeck]; [by left|].
    apply NoDup_app in Hnd as (Hh & Hsep & [Hc Hcs']%NoDup_cons).
    assert (c ∉ h) as Hch by (intros Hin; apply (Hsep c Hin); by left).
    rewrite (discard_card_spec w this p c Hp), Hmember. cbn [negb].
    rewrite bool_decide_eq_false_2, bool_decide_eq_true_2
      by (done || (rewrite Hheld, elem_of_app; right; by left)).
    rewrite Hheld, remove_app_r, remove_head by done.
    set (p1 := mkProps (cards p) (deck p) (h ++ cs) (discard p ++ [c])).
    rewrite (IH (with_props this p1 w) p1 h); try done.
    + cbn [p1 cards deck discard]. by rewrite with_props_with_props, <- app_assoc.
    + apply with_props_lookup.
    + apply NoDup_app. split_and!; [done| |done].
      intros x Hx Hxs. apply (Hsep x Hx). by right.
    + intros x Hx. cbn [p1 cards deck]. apply Hcs. by right.
Qed.

(** X5. Drawing and then discarding what was drawn is [drawToDiscard]: on a
    deck whose piles hold each member once, [draw(count)] followed by
    [discard] of the returned array throws nothing and ends in the store
    [drawToDiscard(count)] ends in. *)
Theorem draw_then_discard_is_drawToDiscard (w : World) (this : DeckId) (p : Props)
    (count : Z) :
  props w !! this = Some p →
  deck_inv p →
  deck p ≠ [] →
  ∃ cs w1 w2,
    Deck.draw this count w = Normal cs w1
    ∧ Deck.discard this (VArray (VCard <$> cs)) w1 = Normal tt w2
    ∧ Deck.drawToDiscard this count w = Normal cs w2.
Proof.
  intros Hp Hinv Hd.
  pose proof (run_draw_any w this p Draw count Hp Hd) as Hdraw.
  pose proof (run_draw_any w this p DrawToDiscard count Hp Hd) as Hdisc.
  cbn [run_draw] in Hdraw, Hdisc.
  set (k := Nat.min (Z.to_nat count) (length (deck p))) in *.
  set (p1 := after_draw p Draw count) in *.
  assert (props (with_props this p1 w) !! this = Some p1) as Hp1 by apply with_props_lookup.
  pose proof (deck_inv_NoDup p Hinv) as Hnd. destruct Hinv as [Hwf Hperm].
  assert (NoDup ((take k (deck p) ++ drop k (deck p)) ++ held p ++ discard p)) as Hnd'
    by (by rewrite take_drop).
  apply NoDup_app in Hnd' as ((Ht & Htd & _)%NoDup_app & Hsep & (Hh & _ & _)%NoDup_app).
  exists (drawn p Draw count), (with_props this p1 w),
    (with_props this (after_draw p DrawToDiscard count) w).
  split_and!; [exact Hdraw| |exact Hdisc].
  rewrite (discard_tail_of_held this (drawn p Draw count) _ p1 (held p) Hp1); try done.
  - by rewrite with_props_with_props.
  - cbn [drawn]. fold k. apply NoDup_app. split_and!; [done| |done].
    intros x Hx Hxt. apply (Hsep x); rewrite elem_of_app; by left.
  - intros c Hc. cbn [drawn] in Hc. fold k in Hc. cbn [p1 after_draw cards deck]. fold k.
    split; [|by apply Htd].
    apply JSSet_has_values. rewrite Hperm, <- (take_drop k (deck p)), !elem_of_app.
    by left; left.
Qed.

Lemma NoDup_123 : NoDup [1; 2; 3].
Proof. apply (bool_decide_unpack _). vm_compute. exact I. Qed.

Lemma draw_then_discard_is_drawToDiscard_witness :
  props two_decks !! 0 = Some (mkProps (JSSet.of_list [1; 2; 3]) [1; 2; 3] [] [])
  ∧ deck_inv (mkProps (JSSet.of_list [1; 2; 3]) [1; 2; 3] [] [])
  ∧ ∃ cs w1 w2,
      Deck.draw 0 2 two_decks = Normal cs w1
      ∧ Deck.discard 0 (VArray (VCard <$> cs)) w1 = Normal tt w2
      ∧ Deck.drawToDiscard 0 2 two_decks = Normal cs w2.
Proof.
  assert (props two_decks !! 0 = Some (mkProps (JSSet.of_list [1; 2; 3]) [1; 2; 3] [] [])) as Hp
    by (vm_compute; reflexivity).
  pose proof (deck_inv_new [1; 2; 3] NoDup_123) as Hinv.
  split_and!; [exact Hp|exact Hinv|].
  exact (draw_then_discard_is_drawToDiscard two_decks 0 _ 2 Hp Hinv ltac:(discriminate)).
Defined.

(** ** More of the class: [locateCard] *)

Lemma locateCard_spec (w : World) (this : DeckId) (p : Props) (c : Card) :
  props w !! this = Some p →
  Deck.locateCard this (VCard c) w
  = if negb (JSSet.has (cards p) c) then Throw NotMemberError w
    else if bool_decide (c ∈ deck p) then Normal (mkLocation "deck" (indexOf (deck p) c) c) w
    else if bool_decide (c ∈ held p) then Normal (mkLocation "held" (indexOf (held p) c) c) w
    else if bool_decide (c ∈ discard p) then
      Normal (mkLocation "discard" (indexOf (discard p) c) c) w
    else Throw NotFoundError w.
Proof.
  intros Hp. unfold Deck.locateCard. rewrite (bind_props_get w this p Hp).
  destruct (negb _); [done|].
  destruct (Z.geb_spec (indexOf (deck p) c) 0) as [Hd|Hd].
  { by rewrite bool_decide_eq_true_2 by (by apply indexOf_elem). }
  rewrite bool_decide_eq_false_2 by (rewrite <- indexOf_elem; lia).
  destruct (Z.geb_spec (indexOf (held p) c) 0) as [Hh|Hh].
  { by rewrite bool_decide_eq_true_2 by (by apply indexOf_elem). }
  rewrite bool_decide_eq_false_2 by (rewrite <- indexOf_elem; lia).
  destruct (Z.geb_spec (indexOf (discard p) c) 0) as [Hx|Hx].
  { by rewrite bool_decide_eq_true_2 by (by apply indexOf_elem). }
  by rewrite bool_decide_eq_false_2 by (rewrite <- indexOf_elem; lia).
Qed.

(** X6. When [locateCard] returns, it changed nothing, its argument was a
    member card, and the descriptor names a pile of [piles] and the first
    index at which that pile holds the card; the draw pile is searched
    first, then the held pile, then the discard pile. *)
Theorem locateCard_points_at_the_card (w w' : World) (this : DeckId) (p : Props)
    (v : Value) (loc : Location) :
  props w !! this = Some p →
  Deck.locateCard this v w = Normal loc w' →
  w' = w
  ∧ v = VCard (loc_card loc)
  ∧ JSSet.has (cards p) (loc_card loc) = true
  ∧ piles_has (loc_pile loc) = true
  ∧ (0 ≤ loc_index loc)%Z
  ∧ pile_get (loc_pile loc) p !! Z.to_nat (loc_index loc) = Some (loc_card loc)
  ∧ (∀ j, j < Z.to_nat (loc_index loc) → pile_get (loc_pile loc) p !! j ≠ Some (loc_card loc))
  ∧ (loc_pile loc ≠ "deck"%string → loc_card loc ∉ deck p)
  ∧ (loc_pile loc = "discard"%string → loc_card loc ∉ held p).
Proof.
  intros Hp. destruct v as [c|vs|]; [|done|done].
  rewrite (locateCard_spec w this p c Hp).
  destruct (JSSet.has (cards p) c) eqn:Hc; cbn [negb]; [|done].
  repeat case_bool_decide; try done; intros [= <- <-]; cbn [loc_pile loc_index loc_card];
    match goal with
    | H : c ∈ ?l |- _ =>
        pose proof (proj2 (indexOf_elem l c) H) as Hidx;
        destruct (indexOf_lookup l c Hidx) as [Hat Hbefore]
    end;
    split_and!; try done.
Qed.

Lemma locateCard_points_at_the_card_witness :
  props one_card_drawn !! 0 = Some (mkProps [Some 7] [] [7] [])
  ∧ Deck.locateCard 0 (VCard 7) one_card_drawn = Normal (mkLocation "held" 0 7) one_card_drawn
  ∧ pile_get "held" (mkProps [Some 7] [] [7] []) !! 0 = Some 7.
Proof.
  assert (props one_card_drawn !! 0 = Some (mkProps [Some 7] [] [7] [])) as Hp
    by (vm_compute; reflexivity).
  assert (Deck.locateCard 0 (VCard 7) one_card_drawn
          = Normal (mkLocation "held" 0 7) one_card_drawn) as Hr by (vm_compute; reflexivity).
  destruct (locateCard_points_at_the_card one_card_drawn one_card_drawn 0 _ _ _ Hp Hr)
    as (_ & _ & _ & _ & _ & Hat & _).
  split_and!; [exact Hp|exact Hr|exact Hat].
Defined.

(** X7. How [locateCard] fails: a value that is not a card (an array
    included) gives the not-a-card error, a card outside the set the
    not-a-member error, and the last [throw] is reached exactly when a member
    card is in none of the three piles; in every case the store is left as
    it was. *)
Theorem locateCard_errors (w : World) (this : DeckId) (p : Props) :
  props w !! this = Some p →
  Deck.locateCard this VOther w = Throw TypeNotCardError w
  ∧ (∀ vs, Deck.locateCard this (VArray vs) w = Throw TypeNotCardError w)
  ∧ (∀ c, JSSet.has (cards p) c = false →
          Deck.locateCard this (VCard c) w = Throw NotMemberError w)
  ∧ (∀ c, JSSet.has (cards p) c = true →
          (Deck.locateCard this (VCard c) w = Throw NotFoundError w ↔ c ∉ piles_of p)).
Proof.
  intros Hp. split_and!; try done.
  - intros c Hc. by rewrite (locateCard_spec w this p c Hp), Hc.
  - intros c Hc. rewrite (locateCard_spec w this p c Hp), Hc. cbn [negb].
    unfold piles_of. rewrite !not_elem_of_app.
    repeat case_bool_decide; split; try done; tauto.
Qed.

Lemma locateCard_errors_witness :
  props one_card_drawn !! 0 = Some (mkProps [Some 7] [] [7] [])
  ∧ Deck.locateCard 0 (VArray [VCard 7]) one_card_drawn = Throw TypeNotCardError one_card_drawn
  ∧ Deck.locateCard 0 (VCard 8) one_card_drawn = Throw NotMemberError one_card_drawn.
Proof.
  assert (props one_card_drawn !! 0 = Some (mkProps [Some 7] [] [7] [])) as Hp
    by (vm_compute; reflexivity).
  destruct (locateCard_errors one_card_drawn 0 _ Hp) as (_ & Harr & Hmem & _).
  split_and!; [exact Hp|apply Harr|by apply Hmem].
Defined.

(** ** More of the class: members are always in a pile *)

Lemma remove_keeps_others (a : list Card) (v x : Card) : x ∈ a → x ≠ v → x ∈ remove a v.
Proof.
  induction a as [|y r IH]; [done|]. rewrite remove_cons, elem_of_cons.
  intros [->|Hr] Hne; case_decide; subst; try done.
  - by left.
  - right. by apply IH.
Qed.

Lemma after_draw_Permutation (p : Props) (m : DrawMethod) (count : Z) :
  piles_of (after_draw p m count) ≡ₚ piles_of p.
Proof.
  unfold piles_of. set (k := Nat.min (Z.to_nat count) (length (deck p))).
  assert (∀ j, (take j (deck p) ++ drop j (deck p)) ++ held p ++ discard p
               ≡ₚ deck p ++ held p ++ discard p) as Hsplit
    by (intros j; by rewrite take_drop).
  destruct m; cbn [after_draw drawn deck held discard]; fold k;
    rewrite ?reverse_Permutation.
  - rewrite <- (Hsplit k). solve_Permutation.
  - rewrite <- (Hsplit (length (deck p) - k)). solve_Permutation.
  - rewrite <- (Hsplit k). solve_Permutation.
  - rewrite <- (Hsplit (length (deck p) - k)). solve_Permutation.
Qed.

Lemma pile_push_Permutation (pile : string) (card : Card) (p : Props) :
  piles_has pile = true → piles_of (pile_push pile card p) ≡ₚ card :: piles_of p.
Proof.
  intros Hpile%piles_has_cases. unfold piles_of, pile_push, push.
  destruct Hpile as [ -> | [ -> | -> ] ]; repeat case_decide; try done;
    cbn [deck held discard]; solve_Permutation.
Qed.

Lemma members_placed_insert (w : World) (this : DeckId) (p' : Props) (cd : gmap Card DeckId) :
  members_placed w →
  (∀ c, JSSet.has (cards p') c = true → c ∈ piles_of p') →
  members_placed (mkWorld (<[this := p']> (props w)) cd).
Proof.
  intros Hw Hp' d p c. cbn [props]. rewrite lookup_insert.
  case_decide; [intros [= <-]; apply Hp'|apply Hw].
Qed.

Lemma members_placed_props (w w' : World) :
  props w' = props w → members_placed w → members_placed w'.
Proof. intros Hprops. unfold members_placed. by rewrite Hprops. Qed.

Section calls_keep_members_placed.
Context (w : World) (Hwf : sets_wf w) (Hpl : members_placed w) (this : DeckId).

Lemma members_placed_rearranged (p p' : Props) :
  props w !! this = Some p → cards p' = cards p → piles_of p' ≡ₚ piles_of p →
  members_placed (with_props this p' w).
Proof using Hpl.
  intros Hp Hcards Hperm. apply members_placed_insert; [done|].
  intros c. rewrite Hcards, Hperm. by apply (Hpl this).
Qed.

Lemma members_placed_new (cs : list Card) : members_placed (world_of (new_Deck cs w)).
Proof using Hpl.
  destruct (new_Deck_spec cs w) as (w' & -> & _ & Hw'). cbn [world_of].
  apply (members_placed_props (mkWorld (props w') ∅)); [done|]. rewrite Hw'.
  apply members_placed_insert; [done|]. intros c. cbn [cards]. unfold JSSet.of_list, piles_of.
  rewrite has_fold_add. cbn [deck held discard]. rewrite !app_nil_r.
  by intros [?|?].
Qed.

Lemma members_placed_add (card : Card) (pile : string) :
  members_placed (world_of (Deck.add this card pile w)).
Proof using Hpl.
  destruct (piles_has pile) eqn:Hpile; [|by rewrite add_invalid_pile].
  destruct (props w !! this) as [p|] eqn:Hp.
  - rewrite (add_spec w this p card pile Hpile Hp). cbn [world_of].
    apply members_placed_insert; [done|].
    intros c [->|Hc]%has_after_add; unfold after_add;
      rewrite pile_push_Permutation by done; [by left|right].
    change (c ∈ piles_of p). by apply (Hpl this).
  - rewrite (add_no_deck w this card pile Hpile Hp). cbn [world_of].
    by apply (members_placed_props w).
Qed.

Lemma members_placed_remove (card : Card) :
  members_placed (world_of (Deck.remove this card w)).
Proof using Hwf Hpl.
  destruct (props w !! this) as [p|] eqn:Hp.
  - rewrite (remove_spec w this p card Hp). cbn [world_of].
    apply members_placed_insert; [done|].
    intros c [Hc Hne]%has_after_remove; [|by apply (Hwf this)].
    pose proof (Hpl this p c Hp Hc) as Hin. unfold piles_of in *.
    cbn [after_remove deck held discard]. rewrite !elem_of_app in *.
    destruct Hin as [?|[?|?]]; [left|right; left|right; right]; by apply remove_keeps_others.
  - unfold Deck.remove. by rewrite props_get_None.
Qed.

Lemma members_placed_run_draw (m : DrawMethod) (count : Z) :
  members_placed (world_of (run_draw m this count w)).
Proof using Hpl.
  destruct (props w !! this) as [p|] eqn:Hp.
  - destruct (decide (deck p = [])) as [Hd|Hd]; [by rewrite (run_draw_empty w this p)|].
    rewrite (run_draw_any w this p m count Hp Hd). cbn [world_of].
    apply (members_placed_rearranged p); [done|by destruct m|apply after_draw_Permutation].
  - destruct m; cbn [run_draw];
      unfold Deck.draw, Deck.drawFromBottom, Deck.drawToDiscard, Deck.drawToDiscardFromBottom;
      by rewrite props_get_None.
Qed.

Lemma members_placed_discard_card (card : Card) :
  members_placed (world_of (Deck.discard_card this card w)).
Proof using Hpl.
  destruct (props w !! this) as [p|] eqn:Hp.
  - rewrite (discard_card_spec w this p card Hp).
    destruct (negb _); [done|].
    case_bool_decide as Hd; [|case_bool_decide as Hh; [|done]]; cbn [world_of];
      apply (members_placed_rearranged p); try done; unfold piles_of; cbn [deck held discard].
    + rewrite (remove_Permutation (deck p) card Hd) at 2. solve_Permutation.
    + rewrite (remove_Permutation (held p) card Hh) at 2. solve_Permutation.
  - unfold Deck.discard_card. by rewrite props_get_None.
Qed.

Lemma members_placed_moves (shuffle : Shuffle) :
  is_shuffle shuffle →
  members_placed (world_of (Deck.shuffleAll shuffle this w))
  ∧ members_placed (world_of (Deck.shuffleRemaining shuffle this w))
  ∧ members_placed (world_of (Deck.shuffleDiscard shuffle this w))
  ∧ members_placed (world_of (Deck.shuffleDeckAndDiscard shuffle this w))
  ∧ members_placed (world_of (Deck.discardAllHeld this w)).
Proof using Hpl.
  intros Hsh.
  unfold Deck.shuffleAll, Deck.shuffleRemaining, Deck.shuffleDiscard,
    Deck.shuffleDeckAndDiscard, Deck.discardAllHeld.
  destruct (props w !! this) as [p|] eqn:Hp.
  - rewrite !(bind_props_get w this p Hp).
    split_and!; apply (members_placed_rearranged p); try done;
      unfold piles_of; cbn [deck held discard]; unfold push; rewrite <- ?(Hsh _);
      solve_Permutation.
  - by rewrite !props_get_None.
Qed.

End calls_keep_members_placed.

Lemma members_placed_discard (this : DeckId) (v : Value) :
  ∀ w, members_placed w → members_placed (world_of (Deck.discard this v w)).
Proof.
  induction v as [card| |vs IH] using Value_nested_ind; intros w Hpl.
  - by apply members_placed_discard_card.
  - done.
  - revert w Hpl. induction IH as [|v vs Hv _ IHvs]; intros w Hpl; [done|].
    rewrite discard_array_cons. specialize (Hv w Hpl).
    destruct (Deck.discard this v w) as [[] w'|e w']; [|done].
    by apply IHvs.
Qed.

Lemma members_placed_merge_forEach (this other : DeckId) (pile : string) :
  ∀ (fuel index : nat) (w : World) (r : Completion unit),
    sets_wf w → members_placed w →
    Deck.merge_forEach fuel this other pile index w = Some r →
    members_placed (world_of r).
Proof.
  induction fuel as [|fuel IH]; intros index w r Hwf Hpl; [done|].
  cbn [Deck.merge_forEach].
  destruct (props w !! other) as [po|] eqn:Hpo; [|by intros [= <-]].
  destruct (cards po !! index) as [[card|]|] eqn:Hentry; [| |by intros [= <-]].
  - pose proof (sets_wf_remove w Hwf other card) as Hwf1.
    pose proof (members_placed_remove w Hwf Hpl other card) as Hpl1.
    unfold bind at 1. destruct (Deck.remove other card w) as [[] w1|e w1];
      cbn [world_of] in Hwf1, Hpl1; [|by intros [= <-]].
    pose proof (sets_wf_add w1 Hwf1 this card pile) as Hwf2.
    pose proof (members_placed_add w1 Hpl1 this card pile) as Hpl2.
    destruct (Deck.add this card pile w1) as [[] w'|e w']; cbn [world_of] in Hwf2, Hpl2.
    + by apply IH.
    + by intros [= <-].
  - by apply IH.
Qed.

Lemma members_placed_run (c : Call) (w w' : World) :
  sets_wf w → members_placed w → run c w w' → members_placed w'.
Proof.
  intros Hwf Hpl Hrun.
  destruct c as [cs|this card pile|this card|this other pile|m this count|this v|this v
                |sh this|sh this|sh this|sh this|this|this f|this|this|this|this];
    cbn [run] in *.
  - subst. by apply members_placed_new.
  - subst. by apply members_placed_add.
  - subst. by apply members_placed_remove.
  - destruct Hrun as (fuel & r & Hr & ->).
    by apply (members_placed_merge_forEach this other pile fuel 0 w r).
  - subst. by apply members_placed_run_draw.
  - subst. by apply members_placed_discard.
  - subst. by rewrite (proj1 (readers_keep_store w this v (fun _ => true))).
  - destruct Hrun as [Hsh ->]. by apply members_placed_moves.
  - destruct Hrun as [Hsh ->]. by apply members_placed_moves.
  - destruct Hrun as [Hsh ->]. by apply members_placed_moves.
  - destruct Hrun as [Hsh ->]. by apply members_placed_moves.
  - subst. apply (members_placed_moves w Hpl this id). by intros l.
  - subst. by rewrite (proj1 (proj2 (readers_keep_store w this VOther f))).
  - subst. by rewrite (proj1 (proj2 (proj2 (readers_keep_store w this VOther (fun _ => true))))).
  - subst.
    by rewrite (proj1 (proj2 (proj2 (proj2 (readers_keep_store w this VOther (fun _ => true)))))).
  - subst. destruct (readers_keep_store w this VOther (fun _ => true)) as (_&_&_&_&->&_). done.
  - subst. destruct (readers_keep_store w this VOther (fun _ => true)) as (_&_&_&_&_&->). done.
Qed.

Lemma reachable_members_placed (allowed : Call → World → Prop) (w : World) :
  reachable allowed w → members_placed w.
Proof.
  induction 1 as [|c w w' Hreach IH _ Hrun].
  - intros d p c. cbn [props empty_world]. by rewrite lookup_empty.
  - apply (members_placed_run c w w'); [|done|done].
    by apply (reachable_sets_wf allowed).
Qed.

(** X8. Whatever calls of the public operations were made before, in any
    order and with any arguments, [locateCard] of a member card returns a
    descriptor: its last [throw] ("This should never happen") is never
    reached, because every method keeps each card of the set in some
    pile. *)
Theorem locateCard_always_finds_members (w : World) (this : DeckId) (p : Props) (c : Card) :
  reachable any_call w →
  props w !! this = Some p →
  JSSet.has (cards p) c = true →
  c ∈ piles_of p
  ∧ ∃ loc, Deck.locateCard this (VCard c) w = Normal loc w.
Proof.
  intros Hreach Hp Hc.
  pose proof (reachable_members_placed any_call w Hreach this p c Hp Hc) as Hin.
  split; [done|]. rewrite (locateCard_spec w this p c Hp), Hc. cbn [negb].
  unfold piles_of in Hin. rewrite !elem_of_app in Hin.
  repeat case_bool_decide; eauto. tauto.
Qed.

Lemma locateCard_always_finds_members_witness :
  reachable any_call twice_added
  ∧ props twice_added !! 0 = Some (mkProps [Some 7] [7] [] [7])
  ∧ ∃ loc, Deck.locateCard 0 (VCard 7) twice_added = Normal loc twice_added.
Proof.
  assert (reachable any_call twice_added) as Hreach.
  { apply (reachable_step _ (CAdd 0 7 "discard") one_card); [|done|vm_compute; reflexivity].
    apply (reachable_step _ (CNew [7]) empty_world); [constructor|done|vm_compute; reflexivity]. }
  assert (props twice_added !! 0 = Some (mkProps [Some 7] [7] [] [7])) as Hp
    by (vm_compute; reflexivity).
  split_and!; [exact Hreach|exact Hp|].
  exact (proj2 (locateCard_always_finds_members twice_added 0 _ 7 Hreach Hp eq_refl)).
Defined.

(** ** More of the class: [add] and the constructor *)

Lemma pile_get_after_add (pile : string) (p : Props) (card : Card) :
  piles_has pile = true →
  pile_get pile (after_add pile p card) = pile_get pile p ++ [card]
  ∧ ∀ pile', piles_has pile' = true → pile' ≠ pile →
             pile_get pile' (after_add pile p card) = pile_get pile' p.
Proof.
  intros Hpile. unfold after_add. split.
  - by rewrite pile_get_pile_push.
  - intros pile' ? ?. by rewrite pile_get_pile_push_ne.
Qed.

(** X9. [add(card, pile)] checks the pile name before anything else: an
    unknown name throws and leaves the store, the card's back-reference
    included, as it was. With a name of [piles] the card becomes the last
    element of that pile, the other two piles and the other decks are
    untouched, the card is in the set and points back to [this];
    [totalLength] grows by one, or not at all when the card was a member
    already. *)
Theorem add_appends_to_named_pile (w : World) (this : DeckId) (p : Props) (card : Card)
    (pile : string) :
  props w !! this = Some p →
  (piles_has pile = false → Deck.add this card pile w = Throw InvalidPileError w)
  ∧ (piles_has pile = true →
     ∃ w' p',
       Deck.add this card pile w = Normal tt w'
       ∧ props w' !! this = Some p'
       ∧ pile_get pile p' = pile_get pile p ++ [card]
       ∧ (∀ pile', piles_has pile' = true → pile' ≠ pile → pile_get pile' p' = pile_get pile' p)
       ∧ JSSet.has (cards p') card = true
       ∧ JSSet.size (cards p')
         = (if JSSet.has (cards p) card then JSSet.size (cards p) else S (JSSet.size (cards p)))
       ∧ card_deck w' !! card = Some this
       ∧ (∀ other, other ≠ this → props w' !! other = props w !! other)).
Proof.
  intros Hp. split; [apply add_invalid_pile|]. intros Hpile.
  eexists _, (after_add pile p card). split; [by apply add_spec|].
  destruct (pile_get_after_add pile p card Hpile) as [Hsame Hother].
  cbn [props card_deck]. split_and!; try done.
  - apply lookup_insert_eq.
  - unfold after_add. rewrite cards_pile_push. cbn [cards]. apply JSSet_has_add. by left.
  - unfold after_add, JSSet.size. rewrite cards_pile_push. cbn [cards].
    rewrite JSSet_values_add. destruct (JSSet.has (cards p) card); [done|].
    rewrite length_app. cbn [length]. lia.
  - apply lookup_partial_alter_eq.
  - intros other Hne. by rewrite lookup_insert_ne.
Qed.

Lemma add_appends_to_named_pile_witness :
  props one_card_drawn !! 0 = Some (mkProps [Some 7] [] [7] [])
  ∧ Deck.add 0 9 "bogus" one_card_drawn = Throw InvalidPileError one_card_drawn
  ∧ ∃ w' p', Deck.add 0 9 "held" one_card_drawn = Normal tt w'
             ∧ props w' !! 0 = Some p'
             ∧ pile_get "held" p' = [7; 9].
Proof.
  assert (props one_card_drawn !! 0 = Some (mkProps [Some 7] [] [7] [])) as Hp
    by (vm_compute; reflexivity).
  split_and!; [exact Hp| |].
  - exact (proj1 (add_appends_to_named_pile one_card_drawn 0 _ 9 "bogus" Hp) eq_refl).
  - destruct (proj2 (add_appends_to_named_pile one_card_drawn 0 _ 9 "held" Hp) eq_refl)
      as (w' & p' & Hr & Hp' & Hpile & _).
    by exists w', p'.
Defined.

Lemma after_add_fields (p : Props) (card : Card) :
  after_add "deck" p card
  = mkProps (JSSet.add (cards p) card) (deck p ++ [card]) (held p) (discard p)
  ∧ after_add "discard" p card
    = mkProps (JSSet.add (cards p) card) (deck p) (held p) (discard p ++ [card])
  ∧ after_add "held" p card
    = mkProps (JSSet.add (cards p) card) (deck p) (held p ++ [card]) (discard p).
Proof. done. Qed.

(** X10. A card added to a pile is located at the end of it: after
    [add(card, pile)] of a card that was in none of the piles,
    [locateCard(card)] names that pile and, as index, the length the pile
    had before. *)
Theorem add_then_locateCard (w : World) (this : DeckId) (p : Props) (card : Card)
    (pile : string) :
  props w !! this = Some p →
  piles_has pile = true →
  card ∉ piles_of p →
  ∃ w', Deck.add this card pile w = Normal tt w'
        ∧ Deck.locateCard this (VCard card) w'
          = Normal (mkLocation pile (Z.of_nat (length (pile_get pile p))) card) w'.
Proof.
  intros Hp Hpile Hfresh. eexists. split; [by apply add_spec|].
  match goal with |- Deck.locateCard _ _ ?w1 = _ => set (w' := w1) end.
  assert (props w' !! this = Some (after_add pile p card)) as Hp' by apply lookup_insert_eq.
  rewrite (locateCard_spec w' this _ card Hp').
  assert (JSSet.has (cards (after_add pile p card)) card = true) as ->.
  { unfold after_add. rewrite cards_pile_push. cbn [cards]. apply JSSet_has_add. by left. }
  cbn [negb]. unfold piles_of in Hfresh. rewrite !not_elem_of_app in Hfresh.
  destruct Hfresh as (Hd & Hh & Hx).
  apply piles_has_cases in Hpile. destruct (after_add_fields p card) as (Ha & Hb & Hc).
  destruct Hpile as [ -> | [ -> | -> ] ]; rewrite ?Ha, ?Hb, ?Hc; cbn [deck held discard];
    rewrite ?(bool_decide_eq_false_2 (card ∈ deck p)), ?(bool_decide_eq_false_2 (card ∈ held p))
      by done;
    (rewrite bool_decide_eq_true_2 by (rewrite elem_of_app; right; by left));
    by rewrite indexOf_app_fresh.
Qed.

Lemma add_then_locateCard_witness :
  props one_card_drawn !! 0 = Some (mkProps [Some 7] [] [7] [])
  ∧ (9 ∉ piles_of (mkProps [Some 7] [] [7] []))
  ∧ ∃ w', Deck.add 0 9 "held" one_card_drawn = Normal tt w'
          ∧ Deck.locateCard 0 (VCard 9) w' = Normal (mkLocation "held" 1 9) w'.
Proof.
  assert (props one_card_drawn !! 0 = Some (mkProps [Some 7] [] [7] [])) as Hp
    by (vm_compute; reflexivity).
  assert (9 ∉ piles_of (mkProps [Some 7] [] [7] [])) as Hfresh.
  { cbn. rewrite not_elem_of_cons. split; [lia|apply not_elem_of_nil]. }
  split_and!; [exact Hp|exact Hfresh|].
  exact (add_then_locateCard one_card_drawn 0 _ 9 "held" Hp eq_refl Hfresh).
Defined.

Lemma card_deck_fold_set (this : DeckId) (cs : list Card) (c : Card) :
  ∀ w, card_deck (fold_left (fun w' card => world_of (set_card_deck card (Some this) w')) cs w)
         !! c
       = if decide (c ∈ cs) then Some this else card_deck w !! c.
Proof.
  induction cs as [|x cs IH]; intros w; cbn [fold_left].
  - by rewrite decide_False by apply not_elem_of_nil.
  - rewrite IH. cbn [set_card_deck world_of card_deck].
    destruct (decide (c ∈ cs)) as [Hin|Hout].
    + by rewrite decide_True by (by right).
    + rewrite lookup_partial_alter. case_decide; subst.
      * by rewrite decide_True by (by left).
      * rewrite decide_False; [done|]. rewrite elem_of_cons. intros [?|?]; congruence.
Qed.

(** X11. [new Deck(cards)] makes a new deck and touches no other: its draw
    pile is a copy of [cards], its held and discard piles are empty, its
    set holds exactly the cards of the sequence, so [totalLength] is at most
    [remainingLength] and equal to it when the cards are distinct; every
    card of the sequence points back to the new deck and no other
    back-reference changes. *)
Theorem new_Deck_fills_draw_pile (cs : list Card) (w : World) :
  ∃ this w',
    new_Deck cs w = Normal this w'
    ∧ props w !! this = None
    ∧ props w' !! this = Some (mkProps (JSSet.of_list cs) cs [] [])
    ∧ (∀ c, JSSet.has (JSSet.of_list cs) c = true ↔ c ∈ cs)
    ∧ JSSet.size (JSSet.of_list cs) ≤ length cs
    ∧ (NoDup cs → JSSet.size (JSSet.of_list cs) = length cs)
    ∧ (∀ d, d ≠ this → props w' !! d = props w !! d)
    ∧ (∀ c, c ∈ cs → card_deck w' !! c = Some this)
    ∧ (∀ c, c ∉ cs → card_deck w' !! c = card_deck w !! c).
Proof.
  set (this := fresh (dom (props w))).
  set (w1 := mkWorld (<[this := mkProps (JSSet.of_list cs) (slice cs) [] []]> (props w))
                     (card_deck w)).
  exists this, (fold_left (fun w' card => world_of (set_card_deck card (Some this) w')) cs w1).
  assert (∀ c, JSSet.has (JSSet.of_list cs) c = true ↔ c ∈ cs) as Hhas.
  { intros c. unfold JSSet.of_list. rewrite has_fold_add. split; [by intros [?|?]|by right]. }
  split_and!; try done.
  - apply not_elem_of_dom, is_fresh.
  - rewrite props_fold_set_card_deck. apply lookup_insert_eq.
  - unfold JSSet.size. apply submseteq_length, NoDup_submseteq; [apply JSSet_wf_of_list|].
    intros c Hc. by apply Hhas, JSSet_has_values.
  - intros Hnd. unfold JSSet.size. by rewrite JSSet_values_of_list.
  - intros d Hd. rewrite props_fold_set_card_deck. by apply lookup_insert_ne.
  - intros c Hc. rewrite card_deck_fold_set. by rewrite decide_True.
  - intros c Hc. rewrite card_deck_fold_set. by rewrite decide_False.
Qed.

(** ** More of the class: moving whole piles *)

(** X12. [shuffleAll] gathers everything in the draw pile: afterwards the
    held and discard piles are empty and the draw pile is a rearrangement
    of the three old piles together, so no card is lost or doubled and
    [remainingLength] is the sum of the three old lengths; the set is
    untouched. The external [shuffle] is any function that permutes its
    array. *)
Theorem shuffleAll_gathers_every_pile (shuffle : Shuffle) (w : World) (this : DeckId)
    (p : Props) :
  is_shuffle shuffle →
  props w !! this = Some p →
  ∃ p', Deck.shuffleAll shuffle this w = Normal tt (with_props this p' w)
        ∧ held p' = []
        ∧ discard p' = []
        ∧ deck p' ≡ₚ deck p ++ held p ++ discard p
        ∧ length (deck p') = length (deck p) + length (held p) + length (discard p)
        ∧ cards p' = cards p.
Proof.
  intros Hsh Hp. eexists. split.
  - unfold Deck.shuffleAll. by rewrite (bind_props_get w this p Hp).
  - cbn [deck held discard cards]. unfold push.
    assert (shuffle ((deck p ++ held p) ++ discard p) ≡ₚ deck p ++ held p ++ discard p) as Hperm
      by (rewrite <- (Hsh _); solve_Permutation).
    split_and!; try done.
    rewrite (Permutation_length Hperm), !length_app. lia.
Qed.

Lemma shuffleAll_gathers_every_pile_witness :
  is_shuffle reverse
  ∧ props one_card_drawn !! 0 = Some (mkProps [Some 7] [] [7] [])
  ∧ ∃ p', Deck.shuffleAll reverse 0 one_card_drawn = Normal tt (with_props 0 p' one_card_drawn)
          ∧ held p' = [] ∧ discard p' = [] ∧ length (deck p') = 1.
Proof.
  assert (is_shuffle reverse) as Hsh by (intros l; symmetry; apply reverse_Permutation).
  assert (props one_card_drawn !! 0 = Some (mkProps [Some 7] [] [7] [])) as Hp
    by (vm_compute; reflexivity).
  destruct (shuffleAll_gathers_every_pile reverse one_card_drawn 0 _ Hsh Hp)
    as (p' & Hr & Hh & Hd & _ & Hlen & _).
  split_and!; [exact Hsh|exact Hp|]. by exists p'.
Defined.

(** X13. [shuffleRemaining] rearranges the draw pile and nothing else;
    [shuffleDeckAndDiscard] empties the discard pile into the draw pile and
    rearranges the whole of it, the old draw pile included, and leaves the
    held pile alone. Neither changes the set. *)
Theorem shuffleRemaining_and_shuffleDeckAndDiscard (shuffle : Shuffle) (w : World)
    (this : DeckId) (p : Props) :
  is_shuffle shuffle →
  props w !! this = Some p →
  (∃ p', Deck.shuffleRemaining shuffle this w = Normal tt (with_props this p' w)
         ∧ deck p' ≡ₚ deck p
         ∧ held p' = held p ∧ discard p' = discard p ∧ cards p' = cards p)
  ∧ (∃ p', Deck.shuffleDeckAndDiscard shuffle this w = Normal tt (with_props this p' w)
           ∧ deck p' ≡ₚ deck p ++ discard p
           ∧ held p' = held p ∧ discard p' = [] ∧ cards p' = cards p).
Proof.
  intros Hsh Hp. split; eexists; (split;
    [unfold Deck.shuffleRemaining, Deck.shuffleDeckAndDiscard;
     by rewrite (bind_props_get w this p Hp)|]);
    cbn [deck held discard cards]; unfold push; split_and!; try done;
    by rewrite <- (Hsh _).
Qed.

Lemma shuffleRemaining_and_shuffleDeckAndDiscard_witness :
  is_shuffle reverse
  ∧ props twice_added !! 0 = Some (mkProps [Some 7] [7] [] [7])
  ∧ ∃ p', Deck.shuffleDeckAndDiscard reverse 0 twice_added
          = Normal tt (with_props 0 p' twice_added)
          ∧ deck p' ≡ₚ [7] ++ [7] ∧ discard p' = [].
Proof.
  assert (is_shuffle reverse) as Hsh by (intros l; symmetry; apply reverse_Permutation).
  assert (props twice_added !! 0 = Some (mkProps [Some 7] [7] [] [7])) as Hp
    by (vm_compute; reflexivity).
  destruct (shuffleRemaining_and_shuffleDeckAndDiscard reverse twice_added 0 _ Hsh Hp)
    as (_ & p' & Hr & Hd & _ & Hx & _).
  split_and!; [exact Hsh|exact Hp|]. by exists p'.
Defined.

(** X14. [discardAllHeld] followed by [shuffleDiscard] puts the hand and the
    discards under the draw pile: [discardAllHeld] appends the held pile to
    the discard pile in its order and empties it; after [shuffleDiscard] the
    old draw pile is still on top in its order, under it is a rearrangement
    of the old discard and held piles, and both of those are empty. *)
Theorem discardAllHeld_then_shuffleDiscard (shuffle : Shuffle) (w : World) (this : DeckId)
    (p : Props) :
  is_shuffle shuffle →
  props w !! this = Some p →
  ∃ w1 w2 p2,
    Deck.discardAllHeld this w = Normal tt w1
    ∧ props w1 !! this = Some (mkProps (cards p) (deck p) [] (discard p ++ held p))
    ∧ Deck.shuffleDiscard shuffle this w1 = Normal tt w2
    ∧ props w2 !! this = Some p2
    ∧ take (length (deck p)) (deck p2) = deck p
    ∧ drop (length (deck p)) (deck p2) ≡ₚ discard p ++ held p
    ∧ held p2 = [] ∧ discard p2 = [] ∧ cards p2 = cards p.
Proof.
  intros Hsh Hp.
  set (p1 := mkProps (cards p) (deck p) [] (discard p ++ held p)).
  assert (props (with_props this p1 w) !! this = Some p1) as Hp1 by apply with_props_lookup.
  eexists (with_props this p1 w), _, _. split_and!.
  - unfold Deck.discardAllHeld. by rewrite (bind_props_get w this p Hp).
  - exact Hp1.
  - unfold Deck.shuffleDiscard. rewrite (bind_props_get _ this p1 Hp1). reflexivity.
  - apply with_props_lookup.
  - cbn [p1 deck discard]. unfold push. by rewrite take_app_length.
  - cbn [p1 deck discard]. unfold push. rewrite drop_app_length. by rewrite <- (Hsh _).
  - done.
  - done.
  - done.
Qed.

Lemma discardAllHeld_then_shuffleDiscard_witness :
  is_shuffle reverse
  ∧ props one_card_drawn !! 0 = Some (mkProps [Some 7] [] [7] [])
  ∧ ∃ w1 w2 p2,
      Deck.discardAllHeld 0 one_card_drawn = Normal tt w1
      ∧ Deck.shuffleDiscard reverse 0 w1 = Normal tt w2
      ∧ props w2 !! 0 = Some p2
      ∧ drop 0 (deck p2) ≡ₚ [] ++ [7] ∧ held p2 = [] ∧ discard p2 = [].
Proof.
  assert (is_shuffle reverse) as Hsh by (intros l; symmetry; apply reverse_Permutation).
  assert (props one_card_drawn !! 0 = Some (mkProps [Some 7] [] [7] [])) as Hp
    by (vm_compute; reflexivity).
  destruct (discardAllHeld_then_shuffleDiscard reverse one_card_drawn 0 _ Hsh Hp)
    as (w1 & w2 & p2 & H1 & _ & H2 & Hp2 & _ & Hdrop & Hh & Hx & _).
  split_and!; [exact Hsh|exact Hp|]. by exists w1, w2, p2.
Defined.

(** ** More of the class: [discard] on arrays *)

(** X15. [discard] treats a nested array as if it were flattened: an array
    is discarded as its first part followed by the rest, and an array that
    starts with an array as that inner array's elements followed by the
    rest; an error in the first part ends the call with the store that
    part left. *)
Theorem discard_flattens_arrays (this : DeckId) (l1 l2 : list Value) (w : World) :
  Deck.discard this (VArray (l1 ++ l2)) w
  = (Deck.discard this (VArray l1) ;; Deck.discard this (VArray l2)) w
  ∧ Deck.discard this (VArray (VArray l1 :: l2)) w
    = Deck.discard this (VArray (l1 ++ l2)) w.
Proof.
  assert (∀ w, Deck.discard this (VArray (l1 ++ l2)) w
               = (Deck.discard this (VArray l1) ;; Deck.discard this (VArray l2)) w) as Happ.
  { clear w. induction l1 as [|v l1 IH]; intros w; [done|].
    cbn [app]. rewrite !discard_array_cons. unfold bind at 1. rewrite discard_array_cons.
    destruct (Deck.discard this v w) as [[] w'|e w']; [|done].
    rewrite IH. done. }
  split; [apply Happ|]. by rewrite discard_array_cons, Happ.
Qed.

(** ** More of the class: how the methods compose *)

(** X16. A discarded card is located in the discard pile: on a deck whose
    piles hold each member once, [discard(card)] of a member card throws
    nothing, and [locateCard(card)] afterwards names the discard pile. *)
Theorem discard_then_locateCard (w : World) (this : DeckId) (p : Props) (c : Card) :
  props w !! this = Some p →
  deck_inv p →
  JSSet.has (cards p) c = true →
  ∃ w' i, Deck.discard this (VCard c) w = Normal tt w'
          ∧ Deck.locateCard this (VCard c) w' = Normal (mkLocation "discard" i c) w'.
Proof.
  intros Hp Hinv Hc. pose proof (deck_inv_NoDup p Hinv) as Hnd. destruct Hinv as [Hwf Hperm].
  assert (c ∈ deck p ++ held p ++ discard p) as Hin by (rewrite <- Hperm; by apply JSSet_has_values).
  apply NoDup_app in Hnd as (Hd & Hsep1 & (Hh & Hsep2 & Hx)%NoDup_app).
  change (Deck.discard this (VCard c) w) with (Deck.discard_card this c w).
  rewrite (discard_card_spec w this p c Hp), Hc. cbn [negb].
  case_bool_decide as Hcd; [|case_bool_decide as Hch].
  - set (p' := mkProps _ _ _ _).
    assert (props (with_props this p' w) !! this = Some p') as Hp' by apply with_props_lookup.
    eexists _, _. split; [done|]. rewrite (locateCard_spec _ this p' c Hp').
    cbn [p' cards deck held discard]. rewrite Hc. cbn [negb].
    rewrite (bool_decide_eq_false_2 (c ∈ remove (deck p) c)) by (rewrite remove_elem by done; tauto).
    rewrite (bool_decide_eq_false_2 (c ∈ held p))
      by (intros ?; apply (Hsep1 c Hcd); rewrite elem_of_app; by left).
    by rewrite bool_decide_eq_true_2 by (rewrite elem_of_app; right; by left).
  - set (p' := mkProps _ _ _ _).
    assert (props (with_props this p' w) !! this = Some p') as Hp' by apply with_props_lookup.
    eexists _, _. split; [done|]. rewrite (locateCard_spec _ this p' c Hp').
    cbn [p' cards deck held discard]. rewrite Hc. cbn [negb].
    rewrite (bool_decide_eq_false_2 (c ∈ deck p)) by done.
    rewrite (bool_decide_eq_false_2 (c ∈ remove (held p) c)) by (rewrite remove_elem by done; tauto).
    by rewrite bool_decide_eq_true_2 by (rewrite elem_of_app; right; by left).
  - eexists _, _. split; [done|]. rewrite (locateCard_spec w this p c Hp), Hc. cbn [negb].
    rewrite (bool_decide_eq_false_2 (c ∈ deck p)), (bool_decide_eq_false_2 (c ∈ held p)) by done.
    rewrite bool_decide_eq_true_2; [done|]. rewrite !elem_of_app in Hin. tauto.
Qed.

Lemma discard_then_locateCard_witness :
  props two_decks !! 0 = Some (mkProps (JSSet.of_list [1; 2; 3]) [1; 2; 3] [] [])
  ∧ deck_inv (mkProps (JSSet.of_list [1; 2; 3]) [1; 2; 3] [] [])
  ∧ ∃ w' i, Deck.discard 0 (VCard 2) two_decks = Normal tt w'
            ∧ Deck.locateCard 0 (VCard 2) w' = Normal (mkLocation "discard" i 2) w'.
Proof.
  assert (props two_decks !! 0 = Some (mkProps (JSSet.of_list [1; 2; 3]) [1; 2; 3] [] [])) as Hp
    by (vm_compute; reflexivity).
  pose proof (deck_inv_new [1; 2; 3] NoDup_123) as Hinv.
  split_and!; [exact Hp|exact Hinv|].
  exact (discard_then_locateCard two_decks 0 _ 2 Hp Hinv eq_refl).
Defined.

(** X17. [remove] twice is [remove] once: on a deck whose piles hold each
    member once, a second [remove(card)] throws nothing and leaves the
    whole store, back-references included, as the first one left it. *)
Theorem remove_twice_is_remove_once (w : World) (this : DeckId) (p : Props) (card : Card) :
  props w !! this = Some p →
  deck_inv p →
  ∃ w', Deck.remove this card w = Normal tt w'
        ∧ Deck.remove this card w' = Normal tt w'.
Proof.
  intros Hp Hinv. pose proof (deck_inv_NoDup p Hinv) as Hnd. destruct Hinv as [Hwf Hperm].
  apply NoDup_app in Hnd as (Hd & _ & (Hh & _ & Hx)%NoDup_app).
  eexists. split; [by apply remove_spec|].
  erewrite remove_spec; [|apply lookup_insert_eq].
  cbn [props card_deck]. rewrite insert_insert_eq, partial_alter_partial_alter_eq.
  f_equal. f_equal. f_equal. unfold after_remove. cbn [cards deck held discard].
  rewrite (JSSet_delete_absent (JSSet.delete (cards p) card)) by (by apply JSSet_has_delete).
  by rewrite !(remove_not_elem (remove _ card)) by (rewrite remove_elem by done; tauto).
Qed.

Lemma remove_twice_is_remove_once_witness :
  props two_decks !! 0 = Some (mkProps (JSSet.of_list [1; 2; 3]) [1; 2; 3] [] [])
  ∧ deck_inv (mkProps (JSSet.of_list [1; 2; 3]) [1; 2; 3] [] [])
  ∧ ∃ w', Deck.remove 0 2 two_decks = Normal tt w' ∧ Deck.remove 0 2 w' = Normal tt w'.
Proof.
  assert (props two_decks !! 0 = Some (mkProps (JSSet.of_list [1; 2; 3]) [1; 2; 3] [] [])) as Hp
    by (vm_compute; reflexivity).
  pose proof (deck_inv_new [1; 2; 3] NoDup_123) as Hinv.
  split_and!; [exact Hp|exact Hinv|].
  exact (remove_twice_is_remove_once two_decks 0 _ 2 Hp Hinv).
Defined.

(** ** More of the class: [findCards] and the lengths *)

Lemma List_filter_elem (f : Card → bool) (l : list Card) (c : Card) :
  c ∈ List.filter f l ↔ c ∈ l ∧ f c = true.
Proof. by rewrite !list_elem_of_In, filter_In. Qed.

Lemma List_filter_NoDup (f : Card → bool) (l : list Card) : NoDup l → NoDup (List.filter f l).
Proof.
  induction 1 as [|x l Hx Hl IH]; [apply NoDup_nil_2|].
  cbn [List.filter]. destruct (f x); [|done].
  apply NoDup_cons. split; [|done]. rewrite List_filter_elem. tauto.
Qed.

(** X18. Whatever calls were made before, [findCards(filter)] changes
    nothing and returns each member card that passes the filter exactly
    once, and only those; with a filter that accepts every card it returns
    [totalLength] cards. *)
Theorem findCards_lists_members_once (w : World) (this : DeckId) (p : Props)
    (filter : Card → bool) :
  reachable any_call w →
  props w !! this = Some p →
  ∃ found every,
    Deck.findCards this filter w = Normal found w
    ∧ NoDup found
    ∧ (∀ c, c ∈ found ↔ JSSet.has (cards p) c = true ∧ filter c = true)
    ∧ Deck.findCards this (fun _ => true) w = Normal every w
    ∧ Deck.totalLength this w = Normal (length every) w.
Proof.
  intros Hreach Hp. pose proof (reachable_sets_wf any_call w Hreach this p Hp) as Hwf.
  unfold Deck.findCards, Deck.totalLength. rewrite !(bind_props_get w this p Hp).
  eexists _, _. split_and!; try done.
  - by apply List_filter_NoDup.
  - intros c. by rewrite List_filter_elem, JSSet_has_values.
  - unfold ret, JSSet.size. do 2 f_equal.
    clear Hwf. induction (JSSet.values (cards p)) as [|x l IH]; [done|]. cbn. by f_equal.
Qed.

Lemma findCards_lists_members_once_witness :
  reachable any_call twice_added
  ∧ props twice_added !! 0 = Some (mkProps [Some 7] [7] [] [7])
  ∧ ∃ found, Deck.findCards 0 (fun c => bool_decide (c = 7)) twice_added = Normal found twice_added
             ∧ NoDup found
             ∧ Deck.totalLength 0 twice_added = Normal 1 twice_added.
Proof.
  assert (reachable any_call twice_added) as Hreach.
  { apply (reachable_step _ (CAdd 0 7 "discard") one_card); [|done|vm_compute; reflexivity].
    apply (reachable_step _ (CNew [7]) empty_world); [constructor|done|vm_compute; reflexivity]. }
  assert (props twice_added !! 0 = Some (mkProps [Some 7] [7] [] [7])) as Hp
    by (vm_compute; reflexivity).
  destruct (findCards_lists_members_once twice_added 0 _ (fun c => bool_decide (c = 7)) Hreach Hp)
    as (found & every & Hf & Hnd & _ & _ & _).
  split_and!; [exact Hreach|exact Hp|].
  exists found. split_and!; [exact Hf|exact Hnd|vm_compute; reflexivity].
Defined.

(** ** More of the class: decks and their cards *)

(** X19. While the constructor and [add] are only handed cards no deck has,
    no card is ever in two decks: a card in the set of one deck is neither
    in the set nor in any pile of another, whatever was merged, removed,
    drawn, discarded or shuffled in between. *)
Theorem decks_share_no_card (w : World) (d1 d2 : DeckId) (p1 p2 : Props) (c : Card) :
  reachable fresh_cards_only w →
  d1 ≠ d2 →
  props w !! d1 = Some p1 →
  props w !! d2 = Some p2 →
  JSSet.has (cards p1) c = true →
  JSSet.has (cards p2) c = false ∧ c ∉ piles_of p2.
Proof.
  intros Hreach Hne Hp1 Hp2 Hc.
  pose proof (reachable_world_inv w Hreach) as [Hdecks Hdisjoint].
  pose proof (Hdisjoint d1 d2 p1 p2 c Hne Hp1 Hp2 Hc) as Hc2. split; [done|].
  destruct (Hdecks d2 p2 Hp2) as [_ Hperm]. unfold piles_of. rewrite <- Hperm.
  by apply JSSet_has_false.
Qed.

Lemma reachable_two_decks : reachable fresh_cards_only two_decks.
Proof.
  apply (reachable_step _ (CNew [4; 5]) (world_of (new_Deck [1; 2; 3] empty_world)));
    [| |vm_compute; reflexivity].
  - apply (reachable_step _ (CNew [1; 2; 3]) empty_world); [constructor| |reflexivity].
    split; [apply NoDup_123|]. intros card _. apply unowned_empty.
  - split; [apply (bool_decide_unpack _); vm_compute; exact I|].
    intros card Hcard d p Hd.
    assert (props (world_of (new_Deck [1; 2; 3] empty_world))
            = <[0 := mkProps (JSSet.of_list [1; 2; 3]) [1; 2; 3] [] []]> ∅) as Hprops
      by (vm_compute; reflexivity).
    rewrite Hprops in Hd. apply lookup_insert_Some in Hd as [[_ <-]|[_ Hd]];
      [|by rewrite lookup_empty in Hd].
    apply JSSet_has_false. cbn [cards]. rewrite JSSet_values_of_list by apply NoDup_123.
    rewrite !elem_of_cons, elem_of_nil in Hcard. rewrite !not_elem_of_cons.
    split_and!; try apply not_elem_of_nil; destruct Hcard as [->|[->|[]]]; lia.
Qed.

Lemma decks_share_no_card_witness :
  reachable fresh_cards_only two_decks
  ∧ 0 ≠ 1
  ∧ props two_decks !! 0 = Some (mkProps [Some 1; Some 2; Some 3] [1; 2; 3] [] [])
  ∧ props two_decks !! 1 = Some (mkProps [Some 4; Some 5] [4; 5] [] [])
  ∧ JSSet.has [Some 4; Some 5] 2 = false.
Proof.
  assert (props two_decks !! 0 = Some (mkProps [Some 1; Some 2; Some 3] [1; 2; 3] [] [])) as Hp1
    by (vm_compute; reflexivity).
  assert (props two_decks !! 1 = Some (mkProps [Some 4; Some 5] [4; 5] [] [])) as Hp2
    by (vm_compute; reflexivity).
  assert (0 ≠ 1) as Hne by discriminate.
  split_and!; [exact reachable_two_decks|exact Hne|exact Hp1|exact Hp2|].
  exact (proj1 (decks_share_no_card two_decks 0 1 _ _ 2 reachable_two_decks Hne Hp1 Hp2 eq_refl)).
Defined.

(** X20. Merging a deck that has no cards does nothing, whatever the pile
    name: the name is only looked at when a card is added, so with no card
    to move even an unknown name throws nothing, and the store is left as
    it was. *)
Theorem merge_of_empty_deck (w : World) (this other : DeckId) (pile : string) (po : Props) :
  props w !! other = Some po →
  JSSet.values (cards po) = [] →
  ∀ fuel, length (cards po) < fuel →
          Deck.merge fuel this other pile w = Some (Normal tt w).
Proof.
  intros Hpo Hempty fuel Hfuel.
  assert (∃ n, n = length (cards po) ∧ cards po = replicate n None ++ []) as (n & Hn & Hcards).
  { exists (length (cards po)). split; [done|]. rewrite app_nil_r. clear Hfuel Hpo.
    induction (cards po) as [|[x|] s IH]; [done|done|].
    cbn [length replicate]. f_equal. by apply IH. }
  rewrite <- Hn in Hfuel. clear Hn. unfold Deck.merge.
  replace fuel with (S (fuel - S n) + n) by lia.
  rewrite (merge_forEach_skip this other pile w po n [] Hpo Hcards n 0 _ eq_refl).
  cbn [Deck.merge_forEach]. by rewrite Hpo, Hcards, lookup_replicate_None_app_ge.
Qed.

Lemma merge_of_empty_deck_witness :
  props removed_once !! 0 = Some (mkProps [None] [7] [] [])
  ∧ JSSet.values [None] = []
  ∧ Deck.merge 2 0 0 "bogus" removed_once = Some (Normal tt removed_once).
Proof.
  assert (props removed_once !! 0 = Some (mkProps [None] [7] [] [])) as Hp
    by (vm_compute; reflexivity).
  split_and!; [exact Hp|reflexivity|].
  apply (merge_of_empty_deck removed_once 0 0 "bogus" _ Hp eq_refl). cbn. lia.
Defined.
